(** * markstruct: a model of the reflective traversal and its properties

    The Go package walks a struct through [reflect], renders the string
    fields it finds with a Markdown converter and writes the result back in
    place.  The development below embeds

    - the part of Go's [reflect] the package calls (values with their
      addressability and read-only flags over a store of variables),
    - the package itself ([process], [convert], [convertMap],
      [convertSlice], [convertStruct], [convertString], the tag helpers),

    and then states the properties of the traversal. *)

From Stdlib Require Import String Ascii ZArith List Bool Lia.
From stdpp Require Import base option list strings.

Local Open Scope string_scope.
Local Open Scope list_scope.

(** ** Errors ([errors.New], [fmt.Errorf] with [%w], [errors.Is]) *)

Module errors.

Inductive error : Type :=
| New (msg : string)
| Wrapf (inner : error) (suffix : string).

#[global] Instance error_eq_dec : EqDecision error.
Proof. solve_decision. Defined.

Fixpoint Is (err target : error) : bool :=
  bool_decide (err = target)
  || match err with
     | Wrapf inner _ => Is inner target
     | New _ => false
     end.

End errors.

Abbreviation error := errors.error.

(** ** The store: Go variables

    Every variable (a struct, each of its fields, each element of an array
    or of a slice's backing array, the target of a pointer, the boxed value
    of an interface) is a location of the store.  A composite variable
    names the locations of its parts, so that a field is reached either
    through its struct or through a pointer to it, as in Go.  Maps are
    reference objects: a map variable holds the location of the map
    object.  Go draws the order in which [MapKeys] lists the keys of a map
    afresh at every call; the order of the entries of a map object stands
    for the order drawn for the traversal at hand, so that one and the same
    Go value, traversed twice, is two stores whose map objects may list
    their entries in different orders.  Statements about one traversal hold
    for every order. *)

Abbreviation loc := nat.

Module reflect.

Inductive Kind : Type :=
| KInvalid | KBool | KInt | KUint | KFloat | KComplex | KArray | KChan
| KFunc | KInterface | KMap | KPtr | KSlice | KString | KStruct
| KUnsafePointer.

#[global] Instance Kind_eq_dec : EqDecision Kind.
Proof. solve_decision. Defined.

(** Kinds the package never looks into. *)
Inductive Opaque : Type :=
| OBool | OInt | OUint | OFloat | OComplex | OChan | OFunc | OInterface
| OUnsafePointer.

Definition opaqueKind (o : Opaque) : Kind :=
  match o with
  | OBool => KBool | OInt => KInt | OUint => KUint | OFloat => KFloat
  | OComplex => KComplex | OChan => KChan | OFunc => KFunc
  | OInterface => KInterface | OUnsafePointer => KUnsafePointer
  end.

(** [reflect.StructTag], already split into its [key:"value"] pairs. *)
Definition StructTag := list (string * string).

Fixpoint Get (tag : StructTag) (key : string) : string :=
  match tag with
  | [] => ""
  | (k, v) :: rest => if String.eqb k key then v else Get rest key
  end.

Record StructField : Type := {
  Name : string;
  Exported : bool;      (* PkgPath is empty *)
  Anonymous : bool;     (* embedded field *)
  Tag : StructTag
}.

(** Map keys.  [NaNKey] stands for a key that is not equal to itself (a
    floating-point NaN, or a composite key that contains one): [MapKeys]
    returns it, no lookup finds it, and every assignment under it adds an
    entry.  The number stands for its bits, which several entries of one
    map can share. *)
Inductive MapKey : Type :=
| IntKey (z : Z)
| StringKey (s : string)
| NaNKey (n : nat).

#[global] Instance MapKey_eq_dec : EqDecision MapKey.
Proof. solve_decision. Defined.

Definition is_nan (k : MapKey) : bool :=
  match k with
  | NaNKey _ => true
  | _ => false
  end.

(** [k == k'] as a map compares keys. *)
Definition key_match (k k' : MapKey) : bool :=
  negb (is_nan k) && bool_decide (k = k').

(** The element type of a map, as far as the package can tell: the
    predeclared type [string], or another type, of which the kind is what
    matters.  [TOther KString] is a named string type ([type HTML string]):
    its kind is String, and a value of type [string] is not assignable to
    it. *)
Inductive ElemType : Type :=
| TString
| TOther (k : Kind).

Definition elemKind (t : ElemType) : Kind :=
  match t with
  | TString => KString
  | TOther k => k
  end.

Inductive cell : Type :=
| CString (s : string)
| CPtr (target : option loc)
| CSlice (elems : list loc)
| CArray (elems : list loc)
| CMap (elem : ElemType) (obj : option loc)
| CMapObj (entries : list (MapKey * string))
| CStruct (fields : list (StructField * loc))
| COpaque (k : Opaque) (bits : Z).

Abbreviation store := (list cell).

Definition kindOf (c : cell) : Kind :=
  match c with
  | CString _ => KString
  | CPtr _ => KPtr
  | CSlice _ => KSlice
  | CArray _ => KArray
  | CMap _ _ => KMap
  | CMapObj _ => KInvalid
  | CStruct _ => KStruct
  | COpaque k _ => opaqueKind k
  end.

Definition kindName (k : Kind) : string :=
  match k with
  | KInvalid => "invalid" | KBool => "bool" | KInt => "int"
  | KUint => "uint" | KFloat => "float64" | KComplex => "complex128"
  | KArray => "array" | KChan => "chan" | KFunc => "func"
  | KInterface => "interface" | KMap => "map" | KPtr => "ptr"
  | KSlice => "slice" | KString => "string" | KStruct => "struct"
  | KUnsafePointer => "unsafe.Pointer"
  end.

(** The flag bits of a [reflect.Value] that decide settability. *)
Record flag : Type := {
  flagAddr : bool;
  flagStickyRO : bool;
  flagEmbedRO : bool
}.

Definition flagRO (fl : flag) : bool := flagStickyRO fl || flagEmbedRO fl.

(** [flag.ro]: any read-only bit becomes the sticky one. *)
Definition ro (fl : flag) : bool := flagRO fl.

Inductive Value : Type :=
| Zero
| Val (fl : flag) (ptr : loc).

(** An [interface{}] argument: nil, or a boxed dynamic value. *)
Definition iface := option loc.

Definition ValueOf (s : iface) : Value :=
  match s with
  | None => Zero
  | Some l =>
      Val {| flagAddr := false; flagStickyRO := false; flagEmbedRO := false |} l
  end.

(** The flags of [p.Elem()] when [p] comes from [ValueOf]: addressable and
    not read-only. *)
Definition addressable : flag :=
  {| flagAddr := true; flagStickyRO := false; flagEmbedRO := false |}.

Definition IsValid (v : Value) : bool :=
  match v with Zero => false | Val _ _ => true end.

Definition CanSet (v : Value) : bool :=
  match v with
  | Zero => false
  | Val fl _ => flagAddr fl && negb (flagRO fl)
  end.

Definition cellOf (v : Value) (st : store) : option cell :=
  match v with
  | Zero => None
  | Val _ l => st !! l
  end.

Definition Kind_of (v : Value) (st : store) : Kind :=
  match cellOf v st with
  | Some c => kindOf c
  | None => KInvalid
  end.

(** [TypeOf(s).Kind()] of a non-nil interface. *)
Definition TypeOf_Kind (s : iface) (st : store) : Kind :=
  Kind_of (ValueOf s) st.

(** [v.Elem()] of a pointer: the zero Value for nil, else the addressable
    target, which inherits the read-only bits. *)
Definition Elem (v : Value) (st : store) : Value :=
  match v with
  | Zero => Zero
  | Val fl l =>
      match st !! l with
      | Some (CPtr (Some t)) =>
          Val {| flagAddr := true;
                 flagStickyRO := flagStickyRO fl;
                 flagEmbedRO := flagEmbedRO fl |} t
      | _ => Zero
      end
  end.

Definition NumField (v : Value) (st : store) : nat :=
  match cellOf v st with
  | Some (CStruct fs) => length fs
  | _ => 0
  end.

(** [v.Type().Field(i)]. *)
Definition Type_Field (v : Value) (i : nat) (st : store) : option StructField :=
  match cellOf v st with
  | Some (CStruct fs) => fst <$> fs !! i
  | _ => None
  end.

(** [v.Field(i)]: addressability and the sticky bit are inherited, an
    unexported field adds a read-only bit of its own. *)
Definition Field (v : Value) (i : nat) (st : store) : Value :=
  match v with
  | Zero => Zero
  | Val fl l =>
      match st !! l with
      | Some (CStruct fs) =>
          match fs !! i with
          | Some (sf, fl_loc) =>
              Val {| flagAddr := flagAddr fl;
                     flagStickyRO :=
                       flagStickyRO fl
                       || (negb (Exported sf) && negb (Anonymous sf));
                     flagEmbedRO := negb (Exported sf) && Anonymous sf |}
                  fl_loc
          | None => Zero
          end
      | _ => Zero
      end
  end.

Definition Len (v : Value) (st : store) : nat :=
  match cellOf v st with
  | Some (CSlice es) => length es
  | Some (CArray es) => length es
  | _ => 0
  end.

(** [v.Index(i)]: an element of a slice is always addressable, an element
    of an array is as addressable as the array. *)
Definition Index (v : Value) (i : nat) (st : store) : Value :=
  match v with
  | Zero => Zero
  | Val fl l =>
      match st !! l with
      | Some (CSlice es) =>
          match es !! i with
          | Some e =>
              Val {| flagAddr := true; flagStickyRO := ro fl;
                     flagEmbedRO := false |} e
          | None => Zero
          end
      | Some (CArray es) =>
          match es !! i with
          | Some e =>
              Val {| flagAddr := flagAddr fl; flagStickyRO := ro fl;
                     flagEmbedRO := false |} e
          | None => Zero
          end
      | _ => Zero
      end
  end.

(** [v.Type().Elem().Kind()] of a map. *)
Definition Type_Elem_Kind (v : Value) (st : store) : Kind :=
  match cellOf v st with
  | Some (CMap t _) => elemKind t
  | _ => KInvalid
  end.

Definition mapObj (v : Value) (st : store) : option (loc * list (MapKey * string)) :=
  match cellOf v st with
  | Some (CMap _ (Some m)) =>
      match st !! m with
      | Some (CMapObj es) => Some (m, es)
      | _ => None
      end
  | _ => None
  end.

Definition MapKeys (v : Value) (st : store) : list MapKey :=
  match mapObj v st with
  | Some (_, es) => fst <$> es
  | None => []
  end.

Fixpoint assoc_get (k : MapKey) (es : list (MapKey * string)) : option string :=
  match es with
  | [] => None
  | (k', s) :: rest => if key_match k k' then Some s else assoc_get k rest
  end.

Fixpoint assoc_set (k : MapKey) (s : string) (es : list (MapKey * string))
  : list (MapKey * string) :=
  match es with
  | [] => [(k, s)]
  | (k', s') :: rest =>
      if key_match k k' then (k', s) :: rest
      else (k', s') :: assoc_set k s rest
  end.

(** [v.MapIndex(key)]: the value stored under the key (a copy), or
    nothing, which stands for the zero Value. *)
Definition MapIndex (v : Value) (key : MapKey) (st : store) : option string :=
  match mapObj v st with
  | Some (_, es) => assoc_get key es
  | None => None
  end.

(** [value.String()] of what [MapIndex] returned. *)
Definition MapValue_String (value : option string) : string :=
  match value with
  | Some s => s
  | None => "<invalid Value>"
  end.

(** [v.SetMapIndex(key, reflect.ValueOf(s))] with [s] of type [string];
    [None] is a panic: of a read-only map Value, of an element type that
    [string] is not assignable to, of a nil map.  An entry is replaced
    under a key the map finds and added otherwise. *)
Definition SetMapIndex (v : Value) (key : MapKey) (s : string) (st : store)
  : option store :=
  match v with
  | Zero => None
  | Val fl l =>
      if flagRO fl then None
      else
        match st !! l with
        | Some (CMap TString (Some m)) =>
            match st !! m with
            | Some (CMapObj es) => Some (<[m := CMapObj (assoc_set key s es)]> st)
            | _ => None
            end
        | _ => None
        end
  end.

(** [v.String()]; for a Value that is not a string Go prints the name of
    its type, for which the name of the kind stands here. *)
Definition String_of (v : Value) (st : store) : string :=
  match cellOf v st with
  | Some (CString s) => s
  | Some c => "<" ++ kindName (kindOf c) ++ " Value>"
  | None => "<invalid Value>"
  end.

(** [v.SetString(x)]; [None] is the panic of a Value that is not a
    settable string. *)
Definition SetString (v : Value) (x : string) (st : store) : option store :=
  match v with
  | Zero => None
  | Val fl l =>
      if CanSet v then
        match st !! l with
        | Some (CString _) => Some (<[l := CString x]> st)
        | _ => None
        end
      else None
  end.

End reflect.

Import reflect.

(** ** [strings.ToLower]

    Modelled on bytes: the ASCII capitals are mapped to their small letters
    and every other byte is kept.  Go maps runes; the only runes outside
    ASCII whose lower case is an ASCII letter are U+0130 and U+212A, which
    give [i] and [k], and neither letter occurs in a word that
    [isMarkdownTagEnabled] compares with. *)

Definition lower_byte (c : ascii) : ascii :=
  let n := nat_of_ascii c in
  if (65 <=? n)%nat && (n <=? 90)%nat then ascii_of_nat (n + 32) else c.

Fixpoint ToLower (s : string) : string :=
  match s with
  | EmptyString => EmptyString
  | String c rest => String (lower_byte c) (ToLower rest)
  end.

(** ** The package *)

Definition structTagKey : string := "markdown".

(** A [parser.ParseOption] is opaque to the package. *)
Definition ParseOption := nat.

(** [goldmark.Markdown], seen through its [Convert] method: from the parse
    options and the source, what was written to the writer and the error. *)
Definition Markdown := list ParseOption -> string -> string * option error.

Record converter : Type := { markdown : Markdown }.

Record fieldProcessor : Type := {
  ConvertAllFields : bool;
  ValidateOnly : bool;
  converter_ : converter;
  parseOptions : list ParseOption
}.

Definition ErrInvalidType : error := errors.New "invalid type".

Definition WithMarkdown (md : Markdown) : converter := {| markdown := md |}.

(** What a call leaves behind: the two results and the store, a panic of
    [reflect], or a recursion deeper than the budget [convert] was given. *)
Inductive outcome : Type :=
| Done (changed : bool) (err : option error) (st : store)
| Panic (st : store)
| OutOfFuel (st : store).

Definition storeOf (o : outcome) : store :=
  match o with
  | Done _ _ st => st
  | Panic st => st
  | OutOfFuel st => st
  end.

Definition isValidSettable (v : Value) : bool := IsValid v && CanSet v.

Definition makeFieldProcessor (c : converter) (opts : list ParseOption) : fieldProcessor :=
  {| ConvertAllFields := false; ValidateOnly := false;
     converter_ := c; parseOptions := opts |}.

Definition isStruct (v : Value) (st : store) : bool :=
  if negb (IsValid v) then false
  else if bool_decide (Kind_of v st = KStruct) then true
  else if bool_decide (Kind_of v st = KPtr) then
    let elem := Elem v st in
    if negb (IsValid elem) then false
    else if bool_decide (Kind_of elem st = KStruct) then true
    else false
  else false.

Definition isMarkdownTagEnabled (tag : StructTag) : bool :=
  let tagval := Get tag structTagKey in
  let low := ToLower tagval in
  if String.eqb low "on" || String.eqb low "yes" || String.eqb low "1"
     || String.eqb low "y" || String.eqb low "enable"
  then true
  else false.

Definition isStructFieldTagEnabled (structval : Value) (fieldIdx : nat) (st : store) : bool :=
  if negb (bool_decide (Kind_of structval st = KStruct)) then false
  else
    match Type_Field structval fieldIdx st with
    | Some structfield => isMarkdownTagEnabled (Tag structfield)
    | None => false
    end.

Definition writeMarkdown (f : fieldProcessor) (source : string) : string * option error :=
  markdown (converter_ f) (parseOptions f) source.

(** The builder's content comes back together with the error. *)
Definition renderString (f : fieldProcessor) (s : string) : string * option error :=
  writeMarkdown f s.

Definition convertString (f : fieldProcessor) (v : Value) (st : store) : outcome :=
  if negb (isValidSettable v) then Done false None st
  else
    let value := String_of v st in
    let '(rendered, err) := renderString f value in
    match err with
    | Some _ => Done false err st
    | None =>
        if ValidateOnly f then Done (negb (String.eqb value rendered)) err st
        else
          match SetString v rendered st with
          | Some st' => Done (negb (String.eqb value rendered)) err st'
          | None => Panic st
          end
    end.

(** The loop of [convertMap] over the keys [MapKeys] returned.  [err] is
    the variable declared before the loop; the [err] that receives the
    result of [renderString] is a new variable of the loop body. *)
Fixpoint convertMap_loop (f : fieldProcessor) (v : Value) (keys : list MapKey)
    (changed : bool) (err : option error) (st : store) : outcome :=
  match keys with
  | [] => Done changed err st
  | kval :: rest =>
      let value := MapIndex v kval st in
      let rawstr := MapValue_String value in
      let '(mdstr, err_inner) := renderString f rawstr in
      match err_inner with
      | Some _ => Done changed err st
      | None =>
          if negb (String.eqb rawstr mdstr) then
            if ValidateOnly f then convertMap_loop f v rest true err st
            else
              match SetMapIndex v kval mdstr st with
              | Some st' => convertMap_loop f v rest true err st'
              | None => Panic st
              end
          else convertMap_loop f v rest changed err st
      end
  end.

Definition convertMap (f : fieldProcessor) (v : Value) (st : store) : outcome :=
  if negb (bool_decide (Kind_of v st = KMap)) then
    Done false (Some (errors.Wrapf ErrInvalidType ": expect map")) st
  else if negb (bool_decide (Type_Elem_Kind v st = KString)) then Done false None st
  else if negb (CanSet v) then Done false None st
  else convertMap_loop f v (MapKeys v st) false None st.

Section Recursion.

(** The recursive call [f.convert], one level further down. *)
Variable convert : fieldProcessor -> Value -> store -> outcome.

(** The loop of [convertSlice] over the indices below [v.Len()]; as in
    [convertMap_loop], the [err] of the loop body is not the [err] that is
    returned. *)
Fixpoint convertSlice_loop (f : fieldProcessor) (v : Value) (idxs : list nat)
    (changed : bool) (err : option error) (st : store) : outcome :=
  match idxs with
  | [] => Done changed err st
  | i :: rest =>
      let entry := Index v i st in
      match convert f entry st with
      | Done fchanged err_inner st' =>
          let changed' := fchanged || changed in
          match err_inner with
          | Some _ => Done changed' err st'
          | None => convertSlice_loop f v rest changed' err st'
          end
      | Panic st' => Panic st'
      | OutOfFuel st' => OutOfFuel st'
      end
  end.

Definition convertSlice_body (f : fieldProcessor) (v : Value) (st : store) : outcome :=
  if negb (bool_decide (Kind_of v st = KSlice)) then
    Done false (Some (errors.Wrapf ErrInvalidType ": expect string slice")) st
  else convertSlice_loop f v (seq 0 (Len v st)) false None st.

(** The loop of [convertStruct] over the indices below [v.NumField()];
    here the result of [f.convert] is assigned to the [err] that is
    returned. *)
Fixpoint convertStruct_loop (f : fieldProcessor) (v : Value) (idxs : list nat)
    (changed : bool) (err : option error) (st : store) : outcome :=
  match idxs with
  | [] => Done changed err st
  | i :: rest =>
      let field := Field v i st in
      if negb (isStruct field st)
         && (negb (ConvertAllFields f) && negb (isStructFieldTagEnabled v i st))
      then convertStruct_loop f v rest changed err st
      else
        match convert f field st with
        | Done fchanged err' st' =>
            let changed' := fchanged || changed in
            match err' with
            | Some _ => Done changed' err' st'
            | None => convertStruct_loop f v rest changed' err' st'
            end
        | Panic st' => Panic st'
        | OutOfFuel st' => OutOfFuel st'
        end
  end.

Definition convertStruct_body (f : fieldProcessor) (v : Value) (st : store) : outcome :=
  if negb (bool_decide (Kind_of v st = KStruct)) then
    Done false (Some (errors.Wrapf ErrInvalidType ": expect struct")) st
  else convertStruct_loop f v (seq 0 (NumField v st)) false None st.

End Recursion.

(** [f.convert]; [depth] bounds the nesting of its calls, which Go leaves
    unbounded (a cyclic value recurses for ever). *)
Fixpoint convert (depth : nat) (f : fieldProcessor) (v : Value) (st : store) : outcome :=
  match depth with
  | O => OutOfFuel st
  | S d =>
      match Kind_of v st with
      | KPtr =>
          let elem := Elem v st in
          convert d f elem st
      | KSlice | KArray => convertSlice_body (convert d) f v st
      | KMap => convertMap f v st
      | KStruct => convertStruct_body (convert d) f v st
      | KString => convertString f v st
      | _ => Done false None st
      end
  end.

Definition convertSlice (depth : nat) : fieldProcessor -> Value -> store -> outcome :=
  convertSlice_body (convert depth).

Definition convertStruct (depth : nat) : fieldProcessor -> Value -> store -> outcome :=
  convertStruct_body (convert depth).

Definition process (depth : nat) (c : converter) (s : iface)
    (allFields validateOnly : bool) (opts : list ParseOption) (st : store) : outcome :=
  let objval := ValueOf s in
  if negb (IsValid objval) then Done false None st
  else if negb (bool_decide (TypeOf_Kind s st = KPtr)) then
    Done false (Some (errors.Wrapf ErrInvalidType ": expect pointer to struct")) st
  else
    let elem := Elem objval st in
    if negb (isValidSettable elem) then Done false None st
    else
      let fieldproc := makeFieldProcessor c opts in
      let fieldproc :=
        {| ConvertAllFields := allFields; ValidateOnly := validateOnly;
           converter_ := converter_ fieldproc;
           parseOptions := parseOptions fieldproc |} in
      convertStruct depth fieldproc elem st.

(** The four methods of [*converter]; the functions of the package are
    these methods of its default converter. *)
Module Converter.

Definition ConvertFields (depth : nat) (c : converter) (s : iface)
    (opts : list ParseOption) : store -> outcome :=
  process depth c s false false opts.

Definition ConvertAllFields (depth : nat) (c : converter) (s : iface)
    (opts : list ParseOption) : store -> outcome :=
  process depth c s true false opts.

Definition ValidateFields (depth : nat) (c : converter) (s : iface)
    (opts : list ParseOption) : store -> outcome :=
  process depth c s false true opts.

Definition ValidateAllFields (depth : nat) (c : converter) (s : iface)
    (opts : list ParseOption) : store -> outcome :=
  process depth c s true true opts.

End Converter.

(** What the caller of an entry point sees of an outcome. *)
Inductive result : Type :=
| Returned (changed : bool) (err : option error)
| Panicked
| Overflowed.

Definition resultOf (o : outcome) : result :=
  match o with
  | Done changed err _ => Returned changed err
  | Panic _ => Panicked
  | OutOfFuel _ => Overflowed
  end.

(** The call came back (with its results or with a panic) within the depth
    it was given. *)
Definition finished (o : outcome) : bool :=
  match o with
  | OutOfFuel _ => false
  | _ => true
  end.

(** The call ended in a panic of [reflect]. *)
Definition panicked (o : outcome) : bool :=
  match o with
  | Panic _ => true
  | _ => false
  end.

(** [deref st n l]: the variable reached from [l] through [n] non-nil
    pointers. *)
Fixpoint deref (st : store) (n : nat) (l : loc) : option loc :=
  match n with
  | O => Some l
  | S k =>
      match st !! l with
      | Some (CPtr (Some m)) => deref st k m
      | _ => None
      end
  end.

(** ** Sample converters and values *)

Module Samples.

Definition BOOM : error := errors.New "BOOM".

(** The converter of the tests that always fails. *)
Definition exploding : Markdown := fun _ _ => ("", Some BOOM).

(** A converter that wraps its source in a paragraph. *)
Definition paragraph : Markdown := fun _ s => (("<p>" ++ s ++ "</p>")%string, None).

(** A converter that rejects the source [bad] and wraps any other in a
    paragraph. *)
Definition strict : Markdown := fun _ s =>
  if String.eqb s "bad" then ("", Some BOOM)
  else (("<p>" ++ s ++ "</p>")%string, None).

(** A converter that turns [x] into [y] and fails on [y]. *)
Definition picky : Markdown := fun _ s =>
  if String.eqb s "x" then ("y", None)
  else if String.eqb s "y" then ("partial", Some BOOM)
  else (s, None).

Definition tagged (name value : string) : StructField :=
  {| Name := name; Exported := true; Anonymous := false;
     Tag := [(structTagKey, value)] |}.

Definition untagged (name : string) : StructField :=
  {| Name := name; Exported := true; Anonymous := false; Tag := [] |}.

Definition unexported (name value : string) : StructField :=
  {| Name := name; Exported := false; Anonymous := false;
     Tag := [(structTagKey, value)] |}.

(** [&struct{ A, B string `markdown:"on"` }{"x", "y"}], boxed at 0. *)
Definition two_fields : store :=
  [ CPtr (Some 1);
    CStruct [(tagged "A" "on", 2); (tagged "B" "on", 3)];
    CString "x"; CString "y" ].

(** [&struct{ A, B *string `markdown:"on"` }{&s, &s}] with [s := "x"]. *)
Definition shared_string : store :=
  [ CPtr (Some 1);
    CStruct [(tagged "A" "on", 2); (tagged "B" "on", 3)];
    CPtr (Some 4); CPtr (Some 4); CString "x" ].

(** [&struct{ Marked []string `markdown:"on"` }{[]string{"one", "two"}}]. *)
Definition with_slice : store :=
  [ CPtr (Some 1); CStruct [(tagged "Marked" "on", 2)];
    CSlice [3; 4]; CString "one"; CString "two" ].

(** [&struct{ Marked [2]string `markdown:"on"` }{[2]string{"one", "two"}}]. *)
Definition with_array : store :=
  [ CPtr (Some 1); CStruct [(tagged "Marked" "on", 2)];
    CArray [3; 4]; CString "one"; CString "two" ].

(** [&struct{ Codes map[int]string `markdown:"on"` }] with two entries. *)
Definition with_map : store :=
  [ CPtr (Some 1); CStruct [(tagged "Codes" "on", 2)];
    CMap TString (Some 3);
    CMapObj [(IntKey 200, "**OK**"); (IntKey 500, "_Error_")] ].

(** [&struct{ Comment string; Manager *T; hidden string `markdown:"on"`;
    PP **string `markdown:"on"` }], [Manager] nil, [PP] two pointers away
    from ["x"]. *)
Definition mixed : store :=
  [ CPtr (Some 1);
    CStruct [(untagged "Comment", 2); (untagged "Manager", 3);
             (unexported "hidden" "on", 4); (tagged "PP" "on", 5)];
    CString "_mine_"; CPtr None; CString "secret";
    CPtr (Some 6); CPtr (Some 7); CString "x" ].

(** A struct passed by value and a typed nil pointer, boxed at 0 and 2. *)
Definition by_value : store :=
  [ CStruct [(tagged "Comment" "on", 1)]; CString "_mine_"; CPtr None ].

(** [&Outer{ Inner: Inner{ Note: "x" } }], [Inner] an untagged field and
    [Note] tagged. *)
Definition nested : store :=
  [ CPtr (Some 1); CStruct [(untagged "Inner", 2)];
    CStruct [(tagged "Note" "on", 3)]; CString "x" ].

(** [&struct{ inner Inner `markdown:"on"` }] with the unexported field
    [inner] holding [Inner{ Note: "x", P: &s }], both tagged, [s := "x"]. *)
Definition hidden_inner : store :=
  [ CPtr (Some 1); CStruct [(unexported "inner" "on", 2)];
    CStruct [(tagged "Note" "on", 3); (tagged "P" "on", 4)];
    CString "x"; CPtr (Some 5); CString "x" ].

(** A converter that wraps its source in a paragraph unless it already
    starts with one. *)
Definition once : Markdown := fun _ s =>
  if String.prefix "<p>" s then (s, None)
  else (("<p>" ++ s ++ "</p>")%string, None).

(** [&struct{ Marked []string `markdown:"on"` }] with the elements [one],
    [bad], [three]. *)
Definition slice_with_bad : store :=
  [ CPtr (Some 1); CStruct [(tagged "Marked" "on", 2)];
    CSlice [3; 4; 5]; CString "one"; CString "bad"; CString "three" ].

(** [&struct{ A string `markdown:"yes"`; B string; c string `markdown:"on"`;
    D string `markdown:"on"` }{"x", "x", "x", "x"}]. *)
Definition four_strings : store :=
  [ CPtr (Some 1);
    CStruct [(tagged "A" "yes", 2); (untagged "B", 3);
             (unexported "c" "on", 4); (tagged "D" "on", 5)];
    CString "x"; CString "x"; CString "x"; CString "x" ].

(** [&struct{ Codes map[int]string `markdown:"on"` }] with the entries
    [200: "OK"], [404: "bad"], [500: "Error"]. *)
Definition map_with_bad : store :=
  [ CPtr (Some 1); CStruct [(tagged "Codes" "on", 2)];
    CMap TString (Some 3);
    CMapObj [(IntKey 200, "OK"); (IntKey 404, "bad"); (IntKey 500, "Error")] ].

(** [&struct{ PP **Inner; P *Inner }], neither field tagged, both reaching
    [Inner{ Note: "x" }] with [Note] tagged: [PP] through two pointers, [P]
    through one. *)
Definition double_pointer : store :=
  [ CPtr (Some 1); CStruct [(untagged "PP", 2); (untagged "P", 3)];
    CPtr (Some 3); CPtr (Some 4);
    CStruct [(tagged "Note" "on", 5)]; CString "x" ].

(** [type HTML string] and [&struct{ Codes map[int]HTML `markdown:"on"` }]
    with the entry [200: "OK"]. *)
Definition with_named_map : store :=
  [ CPtr (Some 1); CStruct [(tagged "Codes" "on", 2)];
    CMap (TOther KString) (Some 3);
    CMapObj [(IntKey 200, "OK")] ].

(** [&struct{ Notes map[float64]string `markdown:"on"` }] with one entry,
    [math.NaN(): "x"]. *)
Definition with_nan_map : store :=
  [ CPtr (Some 1); CStruct [(tagged "Notes" "on", 2)];
    CMap TString (Some 3);
    CMapObj [(NaNKey 0, "x")] ].

End Samples.

(** ** What a traversal can be held to

    [alters f]: the converter of [f] turns some source into a different
    text.  [from_adapter f e]: the converter of [f] returns the error [e]
    for some source.  [err_ok f e]: the error, if any, is the converter's
    or wraps [ErrInvalidType]. *)

Definition alters (f : fieldProcessor) : Prop :=
  exists s out, renderString f s = (out, None) /\ out <> s.

Definition from_adapter (f : fieldProcessor) (e : error) : Prop :=
  exists s out, renderString f s = (out, Some e).

Definition err_ok (f : fieldProcessor) (e : option error) : Prop :=
  forall x, e = Some x -> from_adapter f x \/ errors.Is x ErrInvalidType = true.

(** A Value obtained through an unexported field that is not embedded: the
    sticky read-only bit is set (the zero Value counts, nothing can be
    written through it either). *)
Definition sticky (v : Value) : Prop :=
  match v with
  | Zero => True
  | Val fl _ => flagStickyRO fl = true
  end.

(** The call wrote nothing and reported no change. *)
Definition quiet (st : store) (o : outcome) : Prop :=
  match o with
  | Done c _ st' => c = false /\ st' = st
  | Panic _ => False
  | OutOfFuel st' => st' = st
  end.

(** ** How a store may change

    [store_evolves f st st']: the two stores have the same variables, each
    of the same shape; a string of [st'] is the string of [st] or a text the
    converter of [f] produced without error; a map object keeps its entries,
    keys and order, with values that evolved likewise, and may have gained
    entries at its end, under keys that are not equal to themselves and
    only if it had such a key before. *)

Definition text_evolves (f : fieldProcessor) (s s' : string) : Prop :=
  s' = s \/ exists x, renderString f x = (s', None).

Definition entry_evolves (f : fieldProcessor) (a b : MapKey * string) : Prop :=
  a.1 = b.1 /\ text_evolves f a.2 b.2.

Definition entry_added (f : fieldProcessor) (kv : MapKey * string) : Prop :=
  is_nan kv.1 = true /\ exists x, renderString f x = (kv.2, None).

Definition entries_evolve (f : fieldProcessor) (es es' : list (MapKey * string))
  : Prop :=
  exists kept added,
    es' = kept ++ added
    /\ Forall2 (entry_evolves f) es kept
    /\ Forall (entry_added f) added
    /\ (added <> [] -> Exists (fun kv => is_nan kv.1 = true) es).

Definition cell_evolves (f : fieldProcessor) (c c' : cell) : Prop :=
  match c, c' with
  | CString s, CString s' => text_evolves f s s'
  | CMapObj es, CMapObj es' => entries_evolve f es es'
  | _, _ => c' = c
  end.

Definition store_evolves (f : fieldProcessor) (st st' : store) : Prop :=
  Forall2 (cell_evolves f) st st'.

(** No map of the store has a named string type for its elements. *)
Definition string_maps_plain (st : store) : Prop :=
  forall l t obj,
    st !! l = Some (CMap t obj) -> elemKind t = KString -> t = TString.

(** What rules out the panic of [SetMapIndex]. *)
Definition panic_free (f : fieldProcessor) (st : store) : Prop :=
  ValidateOnly f = true \/ string_maps_plain st.

(** ** Comparing a converting and a validating traversal

    A converting traversal rewrites strings as it goes, a validating one
    does not, so the two run on stores that differ in the content of their
    strings and in nothing else.  [rerendered md opts s0 sc]: the string
    [sc] of the converting run stands where the validating run has [s0];
    either nothing was written, or [s0] was rendered with a change and [sc]
    is something the converter produced. *)

Definition rerendered (md : Markdown) (opts : list ParseOption) (s0 sc : string) : Prop :=
  sc = s0
  \/ ((exists s1, md opts s0 = (s1, None) /\ s1 <> s0)
      /\ exists x, md opts x = (sc, None)).

(** Two cells of the two runs: equal, up to the strings they hold. *)
Definition rel_cell (md : Markdown) (opts : list ParseOption) (c0 cc : cell) : Prop :=
  match c0, cc with
  | CString s0, CString sc => rerendered md opts s0 sc
  | CMapObj es0, CMapObj esc =>
      Forall2 (fun a b => a.1 = b.1 /\ rerendered md opts a.2 b.2) es0 esc
  | _, _ => c0 = cc
  end.

Definition rel_store (md : Markdown) (opts : list ParseOption) (st0 stc : store) : Prop :=
  Forall2 (rel_cell md opts) st0 stc.

(** What the two runs, started in [st0] (validating) and [stc]
    (converting, with accumulated flag [ac]), have to show for each other:
    the same error, the validating store untouched, related stores, and
    flags that differ only when [stc] already differed from [st0]. *)
Definition agree (md : Markdown) (opts : list ParseOption)
    (st0 stc : store) (ac : bool) (ov oc : outcome) : Prop :=
  match ov, oc with
  | Done cv ev stv', Done cc ec stc' =>
      ev = ec /\ stv' = st0 /\ rel_store md opts st0 stc'
      /\ (cc = true -> cv = true)
      /\ (cv = true -> cc = true \/ stc <> st0)
      /\ (cc = false -> stc' = stc /\ ac = false)
  | OutOfFuel _, OutOfFuel _ => True
  | _, _ => False
  end.

(** The accumulated flags [av] (validating) and [ac] (converting) of a loop:
    they can differ only when a string was rewritten before the loop
    started. *)
Definition acc_ok (st0 stc : store) (av ac : bool) : Prop :=
  (ac = true -> av = true) /\ (av = true -> ac = true \/ stc <> st0).


(** The maps of a store are tidy: none has a named string type for its
    elements, none has a key that is not equal to itself. *)
Definition nan_free (st : store) : Prop :=
  forall l es,
    st !! l = Some (CMapObj es) ->
    Forall (fun kv : MapKey * string => is_nan kv.1 = false) es.

Definition tidy_maps (st : store) : Prop := string_maps_plain st /\ nan_free st.

(** ** Reference renderings of flat values *)

(** Rendering texts in order up to the first failure: the texts afterwards,
    whether one of them changed, and the error that stopped it. *)
Fixpoint render_until_error (f : fieldProcessor) (ss : list string)
  : list string * bool * option error :=
  match ss with
  | [] => ([], false, None)
  | s :: rest =>
      match renderString f s with
      | (_, Some e) => (s :: rest, false, Some e)
      | (out, None) =>
          let '(rest', c, e) := render_until_error f rest in
          (out :: rest', negb (String.eqb s out) || c, e)
      end
  end.

(** The variables [ls] hold the strings [ss], one each. *)
Definition hold (st : store) (ls : list loc) (ss : list string) : Prop :=
  Forall2 (fun l s => st !! l = Some (CString s)) ls ss.

(** Rendering the string fields of a struct in declaration order: a field
    is rendered when the policy or its tag makes it eligible and it is
    exported. *)
Fixpoint render_fields (f : fieldProcessor) (flds : list (StructField * string))
  : list string * bool * option error :=
  match flds with
  | [] => ([], false, None)
  | (sf, s) :: rest =>
      if (ConvertAllFields f || isMarkdownTagEnabled (Tag sf)) && Exported sf
      then
        match renderString f s with
        | (_, Some e) => (s :: rest.*2, false, Some e)
        | (out, None) =>
            let '(rest', c, e) := render_fields f rest in
            (out :: rest', negb (String.eqb s out) || c, e)
        end
      else
        let '(rest', c, e) := render_fields f rest in
        (s :: rest', c, e)
  end.

(** Rendering the values of a map in the order of its entries, up to the
    first failure. *)
Fixpoint render_entries (f : fieldProcessor) (es : list (MapKey * string))
  : list (MapKey * string) * bool :=
  match es with
  | [] => ([], false)
  | (k, s) :: rest =>
      match renderString f s with
      | (_, Some _) => ((k, s) :: rest, false)
      | (out, None) =>
          let '(rest', c) := render_entries f rest in
          ((k, out) :: rest', negb (String.eqb s out) || c)
      end
  end.

(** * Properties *)

(** ** The depth budget

    A call that came back within some depth comes back with the same
    outcome within any larger one: the budget only separates the
    traversals that end from those that do not. *)

Section Budget.

Variable f : fieldProcessor.
Variables conv1 conv2 : fieldProcessor -> Value -> store -> outcome.
Hypothesis conv_more :
  forall v st, finished (conv1 f v st) = true -> conv2 f v st = conv1 f v st.

Lemma convertSlice_loop_more v idxs changed err st :
  finished (convertSlice_loop conv1 f v idxs changed err st) = true ->
  convertSlice_loop conv2 f v idxs changed err st
  = convertSlice_loop conv1 f v idxs changed err st.
Proof.
  revert changed st. induction idxs as [|i rest IH]; intros changed st;
    [reflexivity|].
  cbn [convertSlice_loop]. pose proof (conv_more (Index v i st) st) as Hc.
  destruct (conv1 f (Index v i st) st) as [fc [e|] st1 | st1 | st1];
    intros H; try discriminate H; rewrite (Hc eq_refl); try reflexivity.
  apply IH, H.
Qed.

Lemma convertStruct_loop_more v idxs changed err st :
  finished (convertStruct_loop conv1 f v idxs changed err st) = true ->
  convertStruct_loop conv2 f v idxs changed err st
  = convertStruct_loop conv1 f v idxs changed err st.
Proof.
  revert changed err st. induction idxs as [|i rest IH]; intros changed err st;
    [reflexivity|].
  cbn [convertStruct_loop].
  destruct (negb (isStruct (Field v i st) st) && _); [apply IH|].
  pose proof (conv_more (Field v i st) st) as Hc.
  destruct (conv1 f (Field v i st) st) as [fc [e|] st1 | st1 | st1];
    intros H; try discriminate H; rewrite (Hc eq_refl); try reflexivity.
  apply IH, H.
Qed.

End Budget.

Lemma convert_more_fuel depth f v st :
  finished (convert depth f v st) = true ->
  convert (S depth) f v st = convert depth f v st.
Proof.
  revert v st. induction depth as [|d IH]; intros v st H; [discriminate H|].
  cbn [convert] in H. change (convert (S (S d)) f v st) with
    (match Kind_of v st with
     | KPtr => convert (S d) f (Elem v st) st
     | KSlice | KArray => convertSlice_body (convert (S d)) f v st
     | KMap => convertMap f v st
     | KStruct => convertStruct_body (convert (S d)) f v st
     | KString => convertString f v st
     | _ => Done false None st
     end).
  cbn [convert]. destruct (Kind_of v st); try reflexivity.
  - unfold convertSlice_body in *. destruct (negb _); [reflexivity|].
    apply convertSlice_loop_more; [|exact H]. intros; apply IH; assumption.
  - apply IH, H.
  - unfold convertSlice_body in *. destruct (negb _); [reflexivity|].
    apply convertSlice_loop_more; [|exact H]. intros; apply IH; assumption.
  - unfold convertStruct_body in *. destruct (negb _); [reflexivity|].
    apply convertStruct_loop_more; [|exact H]. intros; apply IH; assumption.
Qed.

Lemma convert_budget k depth f v st :
  finished (convert depth f v st) = true ->
  convert (k + depth) f v st = convert depth f v st.
Proof.
  intros H. induction k as [|k IH]; [reflexivity|].
  cbn [Nat.add]. rewrite convert_more_fuel; rewrite IH; auto.
Qed.

(** ** The entry contract *)

Lemma process_eq_convertStruct depth c l t allFields validateOnly opts st :
  st !! l = Some (CPtr (Some t)) ->
  process depth c (Some l) allFields validateOnly opts st
  = convertStruct depth
      {| ConvertAllFields := allFields; ValidateOnly := validateOnly;
         converter_ := c; parseOptions := opts |}
      (Val addressable t) st.
Proof.
  intros Hl. unfold process, TypeOf_Kind, Kind_of. simpl. rewrite Hl. simpl.
  reflexivity.
Qed.

(** C4.  The four entry points are [process] at the four policies.  A nil
    interface and a typed nil pointer give [(false, nil)] and leave the
    store alone; a boxed value whose kind is not a pointer (a struct passed
    by value, a string, a slice) gives [(false, err)] with [err] wrapping
    [ErrInvalidType], and so does a pointer to anything but a struct. *)
Theorem C4_entry_contract depth c allFields validateOnly opts st :
  process depth c None allFields validateOnly opts st = Done false None st
  /\ (forall l, st !! l = Some (CPtr None) ->
        process depth c (Some l) allFields validateOnly opts st
        = Done false None st)
  /\ (forall l, Kind_of (ValueOf (Some l)) st <> KPtr ->
        exists err,
          process depth c (Some l) allFields validateOnly opts st
          = Done false (Some err) st
          /\ errors.Is err ErrInvalidType = true)
  /\ (forall l t,
        st !! l = Some (CPtr (Some t)) ->
        Kind_of (Val addressable t) st <> KStruct ->
        exists err,
          process depth c (Some l) allFields validateOnly opts st
          = Done false (Some err) st
          /\ errors.Is err ErrInvalidType = true).
Proof.
  split; [reflexivity|]. split; [|split].
  - intros l Hl. unfold process, TypeOf_Kind, Kind_of. simpl. rewrite Hl.
    reflexivity.
  - intros l Hk. eexists. unfold process, TypeOf_Kind. simpl.
    rewrite bool_decide_eq_false_2 by exact Hk. simpl. split; reflexivity.
  - intros l t Hl Hk. eexists.
    rewrite (process_eq_convertStruct _ _ _ _ _ _ _ _ Hl).
    unfold convertStruct, convertStruct_body.
    rewrite bool_decide_eq_false_2 by exact Hk. simpl. split; reflexivity.
Qed.

Lemma C4_entry_contract_witness :
  Converter.ConvertFields 3 (WithMarkdown Samples.paragraph) (Some 2) []
    Samples.by_value
  = Done false None Samples.by_value
  /\ exists err,
       Converter.ConvertFields 3 (WithMarkdown Samples.paragraph) (Some 0) []
         Samples.by_value
       = Done false (Some err) Samples.by_value
       /\ errors.Is err ErrInvalidType = true.
Proof.
  destruct (C4_entry_contract 3 (WithMarkdown Samples.paragraph) false false []
              Samples.by_value) as (_ & Hnil & Hbad & _).
  split.
  - apply Hnil. reflexivity.
  - apply Hbad. vm_compute. discriminate.
Defined.

(** ** Tags *)

Lemma isMarkdownTagEnabled_spec tag :
  isMarkdownTagEnabled tag = true
  <-> In (ToLower (Get tag structTagKey)) ["on"; "yes"; "1"; "y"; "enable"].
Proof.
  unfold isMarkdownTagEnabled. cbv zeta.
  generalize (ToLower (Get tag structTagKey)). intros low. simpl In. split.
  - intros H.
    destruct (String.eqb low "on") eqn:E1; [apply String.eqb_eq in E1; subst; auto 10|].
    destruct (String.eqb low "yes") eqn:E2; [apply String.eqb_eq in E2; subst; auto 10|].
    destruct (String.eqb low "1") eqn:E3; [apply String.eqb_eq in E3; subst; auto 10|].
    destruct (String.eqb low "y") eqn:E4; [apply String.eqb_eq in E4; subst; auto 10|].
    destruct (String.eqb low "enable") eqn:E5;
      [apply String.eqb_eq in E5; subst; auto 10|].
    discriminate.
  - intros [<-|[<-|[<-|[<-|[<-|[]]]]]]; reflexivity.
Qed.

Lemma isStructFieldTagEnabled_tag v i sf st :
  Kind_of v st = KStruct ->
  Type_Field v i st = Some sf ->
  isStructFieldTagEnabled v i st = isMarkdownTagEnabled (Tag sf).
Proof.
  intros Hk Hf. unfold isStructFieldTagEnabled.
  rewrite bool_decide_eq_true_2 by exact Hk. rewrite Hf. reflexivity.
Qed.

(** C9.  A field is enabled exactly when the value of its [markdown] tag,
    lowercased, is one of [on], [yes], [1], [y], [enable]; a tag without
    the key is disabled.  The loop of [convertStruct] reads the tag of the
    field it is at: the answer of [isStructFieldTagEnabled] for field [i] of
    a struct is that of [isMarkdownTagEnabled] on the tag of that field.
    So under the tagged-only policy the loop passes over a field whose tag
    value is not one of the five, when the field is not a struct (nor a
    pointer to one), without calling [convert] on it: accumulated result
    and store go on to the next field as they are.  And a field whose tag
    value is one of the five is handed to [convert], whatever the policy:
    its result is accumulated, and an error ends the loop. *)
Theorem C9_tag_gate :
  (forall tag,
     isMarkdownTagEnabled tag = true
     <-> In (ToLower (Get tag structTagKey)) ["on"; "yes"; "1"; "y"; "enable"])
  /\ (forall tag, Get tag structTagKey = "" -> isMarkdownTagEnabled tag = false)
  /\ (forall v i sf st,
        Kind_of v st = KStruct ->
        Type_Field v i st = Some sf ->
        isStructFieldTagEnabled v i st = true
        <-> In (ToLower (Get (Tag sf) structTagKey))
              ["on"; "yes"; "1"; "y"; "enable"])
  /\ (forall conv f v i sf rest changed err st,
        ConvertAllFields f = false ->
        Kind_of v st = KStruct ->
        Type_Field v i st = Some sf ->
        isStruct (Field v i st) st = false ->
        ~ In (ToLower (Get (Tag sf) structTagKey))
            ["on"; "yes"; "1"; "y"; "enable"] ->
        convertStruct_loop conv f v (i :: rest) changed err st
        = convertStruct_loop conv f v rest changed err st)
  /\ (forall conv f v i sf rest changed err st,
        Kind_of v st = KStruct ->
        Type_Field v i st = Some sf ->
        In (ToLower (Get (Tag sf) structTagKey))
          ["on"; "yes"; "1"; "y"; "enable"] ->
        convertStruct_loop conv f v (i :: rest) changed err st
        = match conv f (Field v i st) st with
          | Done fchanged (Some e) st' => Done (fchanged || changed) (Some e) st'
          | Done fchanged None st' =>
              convertStruct_loop conv f v rest (fchanged || changed) None st'
          | Panic st' => Panic st'
          | OutOfFuel st' => OutOfFuel st'
          end).
Proof.
  split; [exact isMarkdownTagEnabled_spec|]. split; [|split; [|split]].
  - intros tag H. unfold isMarkdownTagEnabled. rewrite H. reflexivity.
  - intros v i sf st Hk Hf.
    rewrite (isStructFieldTagEnabled_tag v i sf st Hk Hf).
    apply isMarkdownTagEnabled_spec.
  - intros conv f v i sf rest changed err st Hall Hk Hf Hs Hno.
    cbn [convertStruct_loop].
    rewrite Hall, Hs, (isStructFieldTagEnabled_tag v i sf st Hk Hf).
    destruct (isMarkdownTagEnabled (Tag sf)) eqn:Ht; [|reflexivity].
    apply isMarkdownTagEnabled_spec in Ht. contradiction.
  - intros conv f v i sf rest changed err st Hk Hf Hin.
    cbn [convertStruct_loop].
    rewrite (isStructFieldTagEnabled_tag v i sf st Hk Hf).
    apply isMarkdownTagEnabled_spec in Hin. rewrite Hin.
    cbn [negb]. rewrite !andb_false_r.
    destruct (conv f (Field v i st) st) as [fc [e|] st1| |]; reflexivity.
Qed.

Lemma C9_tag_gate_witness :
  isMarkdownTagEnabled [(structTagKey, "YES")] = true
  /\ isMarkdownTagEnabled [("json", "on")] = false
  /\ isStructFieldTagEnabled (Val addressable 1) 0 Samples.four_strings = true
  /\ convertStruct_loop (convert 2)
       (makeFieldProcessor (WithMarkdown Samples.picky) [])
       (Val addressable 1) [1; 0] false None Samples.four_strings
     = convertStruct_loop (convert 2)
         (makeFieldProcessor (WithMarkdown Samples.picky) [])
         (Val addressable 1) [0] false None Samples.four_strings
  /\ convertStruct_loop (convert 2)
       (makeFieldProcessor (WithMarkdown Samples.picky) [])
       (Val addressable 1) [0] false None Samples.four_strings
     = Done true None (<[2 := CString "y"]> Samples.four_strings).
Proof.
  destruct C9_tag_gate as (Hiff & Habsent & Htag & Hskip & Hpass).
  split; [|split; [|split; [|split]]].
  - apply Hiff. vm_compute. tauto.
  - apply Habsent. reflexivity.
  - apply (Htag (Val addressable 1) 0 (Samples.tagged "A" "yes")
             Samples.four_strings eq_refl eq_refl).
    vm_compute. tauto.
  - apply (Hskip (convert 2)
             (makeFieldProcessor (WithMarkdown Samples.picky) [])
             (Val addressable 1) 1 (Samples.untagged "B") [0] false None
             Samples.four_strings eq_refl eq_refl eq_refl eq_refl).
    vm_compute. intuition discriminate.
  - refine (eq_trans
              (Hpass (convert 2)
                 (makeFieldProcessor (WithMarkdown Samples.picky) [])
                 (Val addressable 1) 0 (Samples.tagged "A" "yes") [] false None
                 Samples.four_strings eq_refl eq_refl _) eq_refl).
    vm_compute. tauto.
Defined.

(** ** Text fields *)

(** C8.  A settable string variable holding [raw] is rendered; when the
    converter succeeds with [rendered], the call reports
    [raw <> rendered] in both modes and writes [rendered] into the variable
    unless the processor only validates.  When the converter fails, the
    call reports [false] with the error and writes nothing.  A string that
    is not settable gives [(false, nil)] and is not even rendered. *)
Theorem C8_convertString f fl l raw st :
  st !! l = Some (CString raw) ->
  (CanSet (Val fl l) = true ->
   forall rendered,
     renderString f raw = (rendered, None) ->
     convertString f (Val fl l) st
     = Done (negb (String.eqb raw rendered)) None
         (if ValidateOnly f then st else <[l := CString rendered]> st))
  /\ (CanSet (Val fl l) = true ->
      forall out e,
        renderString f raw = (out, Some e) ->
        convertString f (Val fl l) st = Done false (Some e) st)
  /\ (CanSet (Val fl l) = false ->
      convertString f (Val fl l) st = Done false None st).
Proof.
  intros Hl. split; [|split].
  - intros Hset rendered Hr. unfold convertString, isValidSettable.
    rewrite Hset. cbn [IsValid andb negb]. unfold String_of. cbn [cellOf].
    rewrite Hl, Hr.
    destruct (ValidateOnly f); [reflexivity|].
    unfold SetString. rewrite Hset, Hl. reflexivity.
  - intros Hset out e Hr. unfold convertString, isValidSettable.
    rewrite Hset. cbn [IsValid andb negb]. unfold String_of. cbn [cellOf].
    rewrite Hl, Hr. reflexivity.
  - intros Hset. unfold convertString, isValidSettable.
    rewrite Hset. reflexivity.
Qed.

Lemma C8_convertString_witness :
  convertString
    {| ConvertAllFields := false; ValidateOnly := false;
       converter_ := WithMarkdown Samples.picky; parseOptions := [] |}
    (Val addressable 2) Samples.two_fields
  = Done true None (<[2 := CString "y"]> Samples.two_fields)
  /\ convertString
       {| ConvertAllFields := false; ValidateOnly := true;
          converter_ := WithMarkdown Samples.picky; parseOptions := [] |}
       (Val addressable 2) Samples.two_fields
     = Done true None Samples.two_fields
  /\ convertString
       (makeFieldProcessor (WithMarkdown Samples.picky) [])
       (Val addressable 3) Samples.two_fields
     = Done false (Some Samples.BOOM) Samples.two_fields
  /\ convertString
       (makeFieldProcessor (WithMarkdown Samples.picky) [])
       (Field (Val addressable 1) 2 Samples.mixed) Samples.mixed
     = Done false None Samples.mixed.
Proof.
  split; [|split; [|split]].
  - destruct (C8_convertString
                {| ConvertAllFields := false; ValidateOnly := false;
                   converter_ := WithMarkdown Samples.picky;
                   parseOptions := [] |}
                addressable 2 "x" Samples.two_fields eq_refl) as (H & _ & _).
    exact (H eq_refl "y" eq_refl).
  - destruct (C8_convertString
                {| ConvertAllFields := false; ValidateOnly := true;
                   converter_ := WithMarkdown Samples.picky;
                   parseOptions := [] |}
                addressable 2 "x" Samples.two_fields eq_refl) as (H & _ & _).
    exact (H eq_refl "y" eq_refl).
  - destruct (C8_convertString
                (makeFieldProcessor (WithMarkdown Samples.picky) [])
                addressable 3 "y" Samples.two_fields eq_refl) as (_ & H & _).
    exact (H eq_refl "partial" Samples.BOOM eq_refl).
  - destruct (C8_convertString
                (makeFieldProcessor (WithMarkdown Samples.picky) [])
                {| flagAddr := true; flagStickyRO := true;
                   flagEmbedRO := false |}
                4 "secret" Samples.mixed eq_refl) as (_ & _ & H).
    exact (H eq_refl).
Defined.

(** ** Structural descent *)

Lemma isStruct_true v st :
  Kind_of v st = KStruct
  \/ (Kind_of v st = KPtr /\ Kind_of (Elem v st) st = KStruct) ->
  isStruct v st = true.
Proof.
  unfold isStruct. intros [Hk | [Hk He]].
  - destruct v as [|fl l]; [discriminate|]. cbn [IsValid negb].
    rewrite Hk. reflexivity.
  - destruct v as [|fl l]; [discriminate|]. cbn [IsValid negb].
    rewrite Hk. destruct (Elem (Val fl l) st) as [|fl' t]; [discriminate|].
    rewrite He. reflexivity.
Qed.

(** C7.  In the loop of [convertStruct], a field that is a struct, or a
    non-nil pointer to a struct, is handed to [convert] whatever the
    processor's policy and whatever its tag; and [convert] of a nil pointer
    returns [(false, nil)] and leaves the store as it is. *)
Theorem C7_descent :
  (forall conv f v i rest changed err st,
     Kind_of (Field v i st) st = KStruct
     \/ (Kind_of (Field v i st) st = KPtr
         /\ Kind_of (Elem (Field v i st) st) st = KStruct) ->
     convertStruct_loop conv f v (i :: rest) changed err st
     = match conv f (Field v i st) st with
       | Done fchanged err' st' =>
           match err' with
           | Some _ => Done (fchanged || changed) err' st'
           | None => convertStruct_loop conv f v rest (fchanged || changed) err' st'
           end
       | Panic st' => Panic st'
       | OutOfFuel st' => OutOfFuel st'
       end)
  /\ (forall d f fl l st,
        st !! l = Some (CPtr None) ->
        convert (S (S d)) f (Val fl l) st = Done false None st).
Proof.
  split.
  - intros conv f v i rest changed err st Hs. simpl.
    rewrite (isStruct_true _ _ Hs). reflexivity.
  - intros d f fl l st Hl. simpl. unfold Kind_of. simpl. rewrite Hl. reflexivity.
Qed.

Lemma C7_descent_witness :
  convertStruct_loop (convert 2)
    (makeFieldProcessor (WithMarkdown Samples.picky) [])
    (Val addressable 1) [0] false None Samples.nested
  = Done true None (<[3 := CString "y"]> Samples.nested)
  /\ convert 2 (makeFieldProcessor (WithMarkdown Samples.picky) [])
       (Val addressable 3) Samples.mixed
     = Done false None Samples.mixed.
Proof.
  destruct C7_descent as (Hrec & Hnil). split.
  - rewrite Hrec; [reflexivity | left; reflexivity].
  - apply Hnil. reflexivity.
Defined.

(** C10.  [convert] follows a chain of non-nil pointers of any length: on
    an addressable Value, the call on the head of the chain is the call on
    the variable at its end, with the calls the chain itself took off the
    budget. *)
Theorem C10_pointer_chain n d f fl l t st :
  flagAddr fl = true ->
  deref st n l = Some t ->
  convert (n + d) f (Val fl l) st = convert d f (Val fl t) st.
Proof.
  intros Haddr. revert l. induction n as [|n IH]; intros l Hd.
  - simpl in Hd. injection Hd as ->. reflexivity.
  - simpl in Hd. destruct (st !! l) as [[| [m|] | | | | | |]|] eqn:Hl;
      try discriminate.
    cbn [Nat.add convert]. unfold Kind_of. cbn [cellOf]. rewrite Hl.
    cbn [kindOf Elem]. rewrite Hl.
    destruct fl as [a s e]. simpl in Haddr. subst a. simpl.
    apply IH, Hd.
Qed.

Lemma C10_pointer_chain_witness :
  convert 3 (makeFieldProcessor (WithMarkdown Samples.picky) [])
    (Field (Val addressable 1) 3 Samples.mixed) Samples.mixed
  = Done true None (<[7 := CString "y"]> Samples.mixed).
Proof.
  change (Field (Val addressable 1) 3 Samples.mixed) with (Val addressable 5).
  rewrite (C10_pointer_chain 2 1 _ addressable 5 7 Samples.mixed eq_refl eq_refl).
  reflexivity.
Defined.

(** ** Errors in sequences and maps *)

(** The loop of [convertSlice] hands back the [err] it was started with. *)
Lemma convertSlice_loop_err conv f v idxs changed err st changed' err' st' :
  convertSlice_loop conv f v idxs changed err st = Done changed' err' st' ->
  err' = err.
Proof.
  revert changed st. induction idxs as [|i rest IH]; intros changed st; simpl.
  - intros [= _ <- _]. reflexivity.
  - destruct (conv f (Index v i st) st) as [fc [e|] st1 | st1 | st1];
      try discriminate.
    + intros [= _ <- _]. reflexivity.
    + apply IH.
Qed.

Lemma convertMap_loop_err f v keys changed err st changed' err' st' :
  convertMap_loop f v keys changed err st = Done changed' err' st' ->
  err' = err.
Proof.
  revert changed st. induction keys as [|k rest IH]; intros changed st; simpl.
  - intros [= _ <- _]. reflexivity.
  - destruct (renderString f (MapValue_String (MapIndex v k st))) as [md [e|]].
    + intros [= _ <- _]. reflexivity.
    + destruct (negb _); [|apply IH].
      destruct (ValidateOnly f); [apply IH|].
      destruct (SetMapIndex v k md st); [apply IH | discriminate].
Qed.

(** On a slice or a settable map of strings the two functions never return
    an error, whatever the converter does. *)
Lemma convertSlice_no_error depth f v st changed err st' :
  Kind_of v st = KSlice ->
  convertSlice depth f v st = Done changed err st' ->
  err = None.
Proof.
  intros Hk. unfold convertSlice, convertSlice_body. rewrite Hk.
  cbn [bool_decide decide_rel negb]. simpl. apply convertSlice_loop_err.
Qed.

(** C2 (the code does otherwise).  With the converter that always fails:
    converting one element of the slice returns the converter's error, yet
    [ConvertFields] on the struct that holds the slice, and on the struct
    that holds a map of strings, returns [(false, nil)]. *)
Theorem C2_element_error_is_dropped :
  convert 1 (makeFieldProcessor (WithMarkdown Samples.exploding) [])
    (Val addressable 3) Samples.with_slice
  = Done false (Some Samples.BOOM) Samples.with_slice
  /\ Converter.ConvertFields 3 (WithMarkdown Samples.exploding) (Some 0) []
       Samples.with_slice
     = Done false None Samples.with_slice
  /\ Converter.ConvertFields 3 (WithMarkdown Samples.exploding) (Some 0) []
       Samples.with_map
     = Done false None Samples.with_map.
Proof. repeat split; reflexivity. Qed.

(** ** Arrays *)

(** C3 (the code does otherwise).  [convert] sends an array to
    [convertSlice], which accepts slices only: a tagged array field makes
    [ConvertFields] return an error that wraps [ErrInvalidType]. *)
Theorem C3_array_field_is_rejected :
  Converter.ConvertFields 3 (WithMarkdown Samples.paragraph) (Some 0) []
    Samples.with_array
  = Done false
      (Some (errors.Wrapf ErrInvalidType ": expect string slice"))
      Samples.with_array
  /\ errors.Is (errors.Wrapf ErrInvalidType ": expect string slice")
       ErrInvalidType = true.
Proof. split; reflexivity. Qed.

(** ** The changed flag on error *)

Lemma convertStruct_loop_app conv f v l1 l2 changed st :
  convertStruct_loop conv f v (l1 ++ l2) changed None st
  = match convertStruct_loop conv f v l1 changed None st with
    | Done c1 None st1 => convertStruct_loop conv f v l2 c1 None st1
    | o => o
    end.
Proof.
  revert changed st. induction l1 as [|i l1 IH]; intros changed st.
  - reflexivity.
  - cbn [app convertStruct_loop].
    destruct (negb (isStruct (Field v i st) st)
              && (negb (ConvertAllFields f)
                  && negb (isStructFieldTagEnabled v i st))).
    + apply IH.
    + destruct (conv f (Field v i st) st) as [fc [e|] st1 | st1 | st1];
        try reflexivity.
      apply IH.
Qed.

(** C1 (as amended).  An entry point on a pointer to a struct: when the
    fields before field [i] were visited without error, with accumulated
    flag [c1], and converting field [i] returns the error [e] with flag
    [fc], the call stops there and returns [e] together with [fc || c1];
    so the flag is [true] as soon as an earlier field had changed. *)
Theorem C1_error_with_accumulated_changed
    depth c l t allFields validateOnly opts st before i after c1 st1 fc e st2 :
  let f := {| ConvertAllFields := allFields; ValidateOnly := validateOnly;
              converter_ := c; parseOptions := opts |} in
  let v := Val addressable t in
  st !! l = Some (CPtr (Some t)) ->
  Kind_of v st = KStruct ->
  seq 0 (NumField v st) = before ++ i :: after ->
  convertStruct_loop (convert depth) f v before false None st = Done c1 None st1 ->
  isStruct (Field v i st1) st1 || allFields || isStructFieldTagEnabled v i st1
  = true ->
  convert depth f (Field v i st1) st1 = Done fc (Some e) st2 ->
  process depth c (Some l) allFields validateOnly opts st
  = Done (fc || c1) (Some e) st2.
Proof.
  intros f v Hl Hk Hseq Hbefore Hgate Hfield.
  rewrite (process_eq_convertStruct _ _ _ _ _ _ _ _ Hl).
  fold f v. unfold convertStruct, convertStruct_body. rewrite Hk.
  cbn [bool_decide decide_rel negb]. simpl negb. cbv iota.
  rewrite Hseq, convertStruct_loop_app, Hbefore.
  cbn [convertStruct_loop]. rewrite Hfield.
  replace (negb (isStruct (Field v i st1) st1)
           && (negb (ConvertAllFields f)
               && negb (isStructFieldTagEnabled v i st1))) with false;
    [reflexivity|].
  symmetry. subst f. cbn [ConvertAllFields].
  destruct (isStruct _ _), allFields, (isStructFieldTagEnabled _ _ _);
    simpl in *; congruence.
Qed.

Lemma C1_error_with_accumulated_changed_witness :
  Converter.ConvertFields 3 (WithMarkdown Samples.picky) (Some 0) []
    Samples.two_fields
  = Done true (Some Samples.BOOM) (<[2 := CString "y"]> Samples.two_fields).
Proof.
  exact (C1_error_with_accumulated_changed
           3 (WithMarkdown Samples.picky) 0 1 false false [] Samples.two_fields
           [0] 1 [] true (<[2 := CString "y"]> Samples.two_fields) false
           Samples.BOOM (<[2 := CString "y"]> Samples.two_fields)
           eq_refl eq_refl eq_refl eq_refl eq_refl eq_refl).
Defined.

(** C1 as stated fails: the first field changes, the second makes the
    converter fail, and [ConvertFields] returns the error with
    [changed = true]. *)
Lemma C1_counterexample :
  ~ (forall changed e st',
       Converter.ConvertFields 3 (WithMarkdown Samples.picky) (Some 0) []
         Samples.two_fields
       = Done changed (Some e) st' ->
       changed = false).
Proof.
  intros H.
  specialize (H true Samples.BOOM (<[2 := CString "y"]> Samples.two_fields) eq_refl).
  discriminate H.
Qed.

(** ** Validation leaves the store alone *)

Section Validate.

Variable f : fieldProcessor.
Hypothesis validating : ValidateOnly f = true.

Lemma convertString_validate v st : storeOf (convertString f v st) = st.
Proof.
  unfold convertString. destruct (negb (isValidSettable v)); [reflexivity|].
  destruct (renderString f (String_of v st)) as [rendered [e|]];
    [reflexivity|].
  rewrite validating. reflexivity.
Qed.

Lemma convertMap_loop_validate v keys changed err st :
  storeOf (convertMap_loop f v keys changed err st) = st.
Proof.
  revert changed. induction keys as [|k rest IH]; intros changed; simpl.
  - reflexivity.
  - destruct (renderString f (MapValue_String (MapIndex v k st))) as [md [e|]];
      [reflexivity|].
    rewrite validating. destruct (negb _); apply IH.
Qed.

Lemma convertMap_validate v st : storeOf (convertMap f v st) = st.
Proof.
  unfold convertMap.
  repeat (match goal with |- context [if ?b then _ else _] => destruct b end;
          try reflexivity).
  apply convertMap_loop_validate.
Qed.

Section Loops.

Variable conv : fieldProcessor -> Value -> store -> outcome.
Hypothesis conv_validate : forall v st, storeOf (conv f v st) = st.

Lemma convertSlice_loop_validate v idxs changed err st :
  storeOf (convertSlice_loop conv f v idxs changed err st) = st.
Proof.
  revert changed. induction idxs as [|i rest IH]; intros changed; simpl.
  - reflexivity.
  - pose proof (conv_validate (Index v i st) st) as Hc.
    destruct (conv f (Index v i st) st) as [fc [e|] st1 | st1 | st1];
      simpl in Hc; subst st1; try reflexivity.
    apply IH.
Qed.

Lemma convertStruct_loop_validate v idxs changed err st :
  storeOf (convertStruct_loop conv f v idxs changed err st) = st.
Proof.
  revert changed err. induction idxs as [|i rest IH]; intros changed err; simpl.
  - reflexivity.
  - destruct (negb (isStruct (Field v i st) st) && _); [apply IH|].
    pose proof (conv_validate (Field v i st) st) as Hc.
    destruct (conv f (Field v i st) st) as [fc [e|] st1 | st1 | st1];
      simpl in Hc; subst st1; try reflexivity.
    apply IH.
Qed.

End Loops.

Lemma convert_validate depth v st : storeOf (convert depth f v st) = st.
Proof.
  revert v st. induction depth as [|d IH]; intros v st; [reflexivity|].
  cbn [convert]. destruct (Kind_of v st); try reflexivity.
  - unfold convertSlice_body. destruct (negb _); [reflexivity|].
    apply convertSlice_loop_validate, IH.
  - apply convertMap_validate.
  - apply IH.
  - unfold convertSlice_body. destruct (negb _); [reflexivity|].
    apply convertSlice_loop_validate, IH.
  - apply convertString_validate.
  - unfold convertStruct_body. destruct (negb _); [reflexivity|].
    apply convertStruct_loop_validate, IH.
Qed.

End Validate.

(** C5.  [ValidateFields] and [ValidateAllFields] ([process] with
    [validateOnly] set) end, whatever the outcome, in the store they
    started from: no variable reachable from the argument, or any other,
    has changed. *)
Theorem C5_validate_keeps_store depth c s allFields opts st :
  storeOf (process depth c s allFields true opts st) = st.
Proof.
  unfold process.
  repeat (match goal with |- context [if ?b then _ else _] => destruct b end;
          try reflexivity).
  unfold convertStruct, convertStruct_body. destruct (negb _); [reflexivity|].
  apply convertStruct_loop_validate.
  intros v st'. apply convert_validate. reflexivity.
Qed.

Lemma eqb_neq_true (a b : string) : a <> b -> negb (String.eqb a b) = true.
Proof. intros H. apply negb_true_iff, String.eqb_neq, H. Qed.

Lemma negb_eqb_false (a b : string) : negb (String.eqb a b) = false -> a = b.
Proof. intros H. apply negb_false_iff in H. apply String.eqb_eq, H. Qed.

(** C6 (the code does otherwise).  The doc comments promise that
    [ValidateFields] returns the same values as [ConvertFields]; the code
    does not keep the promise, in two ways.

    A map whose element type is a named string type ([type HTML string],
    [map[int]HTML]) passes the guard of [convertMap], which looks at the
    kind of the element type.  Validation renders the value and returns
    [(true, nil)]; conversion renders it and calls [SetMapIndex] with a
    plain [string], which panics.

    Two pointer fields share one string, the converter turns [x] into [y]
    and fails on [y].  Validation renders [x] twice and returns
    [(true, nil)]; conversion renders [x], writes [y], renders [y] and
    returns [(true, BOOM)]. *)
Theorem C6_validate_differs_from_convert :
  (resultOf (Converter.ValidateFields 3 (WithMarkdown Samples.paragraph) (Some 0) []
               Samples.with_named_map)
   = Returned true None
   /\ resultOf (Converter.ConvertFields 3 (WithMarkdown Samples.paragraph) (Some 0) []
                  Samples.with_named_map)
      = Panicked)
  /\ (resultOf (Converter.ValidateFields 4 (WithMarkdown Samples.picky) (Some 0) []
                  Samples.shared_string)
      = Returned true None
      /\ resultOf (Converter.ConvertFields 4 (WithMarkdown Samples.picky) (Some 0) []
                     Samples.shared_string)
         = Returned true (Some Samples.BOOM)).
Proof. repeat split. Qed.

(** * Further properties of the traversal *)

(** ** What a returned result says about the store and the converter *)

Lemma eqb_false_neq (a b : string) : negb (String.eqb a b) = true -> a <> b.
Proof. intros H%negb_true_iff. apply String.eqb_neq, H. Qed.

(** The three facts for [convertString]. *)
Lemma convertString_facts f v st c e st' :
  convertString f v st = Done c e st' ->
  (c = false -> st' = st)
  /\ (c = true -> alters f)
  /\ (forall x, e = Some x -> from_adapter f x).
Proof.
  unfold convertString. destruct (isValidSettable v) eqn:Hset; cbn [negb].
  2:{ intros [= <- <- <-]. repeat split; auto; discriminate. }
  destruct (renderString f (String_of v st)) as [rendered [x|]] eqn:Hr.
  { intros [= <- <- <-]. split; [auto|]. split; [discriminate|].
    intros ? [= <-]. eexists _, _. exact Hr. }
  assert (Halt : negb (String_of v st =? rendered) = true -> alters f).
  { intros Hn. exists (String_of v st), rendered. split; [exact Hr|].
    apply eqb_false_neq in Hn. congruence. }
  destruct (ValidateOnly f).
  { intros [= <- <- <-]. split; [auto|]. split; [exact Halt | discriminate]. }
  destruct v as [|fl l]; [discriminate Hset|].
  unfold SetString, String_of in *. cbn [cellOf] in *.
  destruct (CanSet (Val fl l)); [|discriminate].
  destruct (st !! l) as [[s0| | | | | | |]|] eqn:Hl; try discriminate.
  intros [= <- <- <-]. split; [|split; [exact Halt | discriminate]].
  intros Hn. apply negb_eqb_false in Hn. subst rendered.
  apply list_insert_id, Hl.
Qed.

Lemma convertMap_loop_facts f v keys :
  forall changed err st c e st',
    convertMap_loop f v keys changed err st = Done c e st' ->
    (changed = true -> c = true)
    /\ (c = false -> st' = st)
    /\ (c = true -> changed = true \/ alters f)
    /\ e = err.
Proof.
  induction keys as [|k rest IH]; intros changed err st c e st'; simpl.
  { intros [= <- <- <-]. repeat split; auto. }
  destruct (renderString f (MapValue_String (MapIndex v k st)))
    as [md [x|]] eqn:Hr.
  { intros [= <- <- <-]. repeat split; auto. }
  destruct (negb (MapValue_String (MapIndex v k st) =? md)) eqn:Hn.
  - intros H.
    assert (Hrest : exists st1,
              convertMap_loop f v rest true err st1 = Done c e st').
    { destruct (ValidateOnly f); [eauto|].
      destruct (SetMapIndex v k md st); [eauto | discriminate]. }
    destruct Hrest as [st1 Hrest].
    apply IH in Hrest as (H1 & H2 & H3 & H4).
    rewrite (H1 eq_refl). split; [auto|]. split; [discriminate|].
    split; [|exact H4]. intros _. right.
    exists (MapValue_String (MapIndex v k st)), md. split; [exact Hr|].
    apply eqb_false_neq in Hn. congruence.
  - intros H. apply IH in H. exact H.
Qed.

Lemma convertMap_facts f v st c e st' :
  convertMap f v st = Done c e st' ->
  (c = false -> st' = st)
  /\ (c = true -> alters f)
  /\ (forall x, e = Some x -> errors.Is x ErrInvalidType = true).
Proof.
  unfold convertMap.
  destruct (negb (bool_decide (Kind_of v st = KMap))).
  { intros [= <- <- <-]. split; [auto|]. split; [discriminate|].
    intros ? [= <-]. reflexivity. }
  destruct (negb (bool_decide (Type_Elem_Kind v st = KString))).
  { intros [= <- <- <-]. repeat split; auto; discriminate. }
  destruct (negb (CanSet v)).
  { intros [= <- <- <-]. repeat split; auto; discriminate. }
  intros H. apply convertMap_loop_facts in H as (_ & H2 & H3 & ->).
  split; [exact H2|]. split; [|discriminate].
  intros Hc. destruct (H3 Hc); [discriminate | assumption].
Qed.

Section FactsLoops.

Variable f : fieldProcessor.
Variable conv : fieldProcessor -> Value -> store -> outcome.
Hypothesis conv_facts :
  forall v st c e st',
    conv f v st = Done c e st' ->
    (c = false -> st' = st) /\ (c = true -> alters f) /\ err_ok f e.

Lemma convertSlice_loop_facts v idxs :
  forall changed err st c e st',
    convertSlice_loop conv f v idxs changed err st = Done c e st' ->
    (changed = true -> c = true)
    /\ (c = false -> st' = st)
    /\ (c = true -> changed = true \/ alters f)
    /\ e = err.
Proof.
  induction idxs as [|i rest IH]; intros changed err st c e st'; simpl.
  { intros [= <- <- <-]. repeat split; auto. }
  destruct (conv f (Index v i st) st) as [fc ei st1| |] eqn:Hc;
    try discriminate.
  apply conv_facts in Hc as (Ha & Hb & _).
  assert (Hstep : forall c0 e0,
            ((fc || changed = true -> c0 = true)
             /\ (c0 = false -> st' = st1)
             /\ (c0 = true -> fc || changed = true \/ alters f)
             /\ e0 = err) ->
            (changed = true -> c0 = true)
            /\ (c0 = false -> st' = st)
            /\ (c0 = true -> changed = true \/ alters f)
            /\ e0 = err).
  { intros c0 e0 (H1 & H2 & H3 & H4). split; [|split; [|split]]; auto.
    - intros ->. apply H1, orb_true_r.
    - intros Hf. rewrite (H2 Hf). apply Ha.
      destruct fc; [|reflexivity]. rewrite H1 in Hf by reflexivity.
      discriminate.
    - intros Ht. destruct (H3 Ht) as [[Hfc| ->]%orb_true_iff|]; auto. }
  destruct ei as [x|].
  - intros [= <- <- <-]. apply Hstep. repeat split; auto.
  - intros H. apply Hstep. eapply IH, H.
Qed.

Lemma convertStruct_loop_facts v idxs :
  forall changed err st c e st',
    err_ok f err ->
    convertStruct_loop conv f v idxs changed err st = Done c e st' ->
    (changed = true -> c = true)
    /\ (c = false -> st' = st)
    /\ (c = true -> changed = true \/ alters f)
    /\ err_ok f e.
Proof.
  induction idxs as [|i rest IH]; intros changed err st c e st' Herr; simpl.
  { intros [= <- <- <-]. repeat split; auto. }
  destruct (negb (isStruct (Field v i st) st) && _); [apply IH, Herr|].
  destruct (conv f (Field v i st) st) as [fc ei st1| |] eqn:Hc;
    try discriminate.
  apply conv_facts in Hc as (Ha & Hb & He).
  assert (Hstep : forall c0 e0,
            ((fc || changed = true -> c0 = true)
             /\ (c0 = false -> st' = st1)
             /\ (c0 = true -> fc || changed = true \/ alters f)
             /\ err_ok f e0) ->
            (changed = true -> c0 = true)
            /\ (c0 = false -> st' = st)
            /\ (c0 = true -> changed = true \/ alters f)
            /\ err_ok f e0).
  { intros c0 e0 (H1 & H2 & H3 & H4). split; [|split; [|split]]; auto.
    - intros ->. apply H1, orb_true_r.
    - intros Hf. rewrite (H2 Hf). apply Ha.
      destruct fc; [|reflexivity]. rewrite H1 in Hf by reflexivity.
      discriminate.
    - intros Ht. destruct (H3 Ht) as [[Hfc| ->]%orb_true_iff|]; auto. }
  destruct ei as [x|].
  - intros [= <- <- <-]. apply Hstep. repeat split; auto.
  - intros H. apply Hstep. eapply IH, H. exact He.
Qed.

End FactsLoops.

Lemma err_ok_None f : err_ok f None.
Proof. intros x [=]. Qed.

Lemma convert_facts depth f :
  forall v st c e st',
    convert depth f v st = Done c e st' ->
    (c = false -> st' = st) /\ (c = true -> alters f) /\ err_ok f e.
Proof.
  induction depth as [|d IH]; intros v st c e st'; [discriminate|].
  cbn [convert].
  assert (Hdone : Done false None st = Done c e st' ->
            (c = false -> st' = st) /\ (c = true -> alters f) /\ err_ok f e).
  { intros [= <- <- <-]. repeat split; auto using err_ok_None. discriminate. }
  assert (Hslice : convertSlice_body (convert d) f v st = Done c e st' ->
            (c = false -> st' = st) /\ (c = true -> alters f) /\ err_ok f e).
  { unfold convertSlice_body. destruct (negb _).
    - intros [= <- <- <-]. split; [auto|]. split; [discriminate|].
      intros x [= <-]. right. reflexivity.
    - intros H. apply (convertSlice_loop_facts f (convert d) IH) in H
        as (_ & H2 & H3 & ->).
      split; [exact H2|]. split; [|apply err_ok_None].
      intros Hc. destruct (H3 Hc); [discriminate | assumption]. }
  destruct (Kind_of v st); try exact Hdone; try exact Hslice.
  - intros H. apply convertMap_facts in H as (H1 & H2 & H3).
    split; [exact H1|]. split; [exact H2|]. intros x Hx. right. apply H3, Hx.
  - apply IH.
  - intros H. apply convertString_facts in H as (H1 & H2 & H3).
    split; [exact H1|]. split; [exact H2|]. intros x Hx. left. apply H3, Hx.
  - unfold convertStruct_body. destruct (negb _).
    + intros [= <- <- <-]. split; [auto|]. split; [discriminate|].
      intros x [= <-]. right. reflexivity.
    + intros H.
      apply (convertStruct_loop_facts f (convert d) IH) in H
        as (_ & H2 & H3 & H4); [|apply err_ok_None].
      split; [exact H2|]. split; [|exact H4].
      intros Hc. destruct (H3 Hc); [discriminate | assumption].
Qed.

Lemma process_facts depth c s allFields validateOnly opts st ch e st' :
  let f := {| ConvertAllFields := allFields; ValidateOnly := validateOnly;
              converter_ := c; parseOptions := opts |} in
  process depth c s allFields validateOnly opts st = Done ch e st' ->
  (ch = false -> st' = st) /\ (ch = true -> alters f) /\ err_ok f e.
Proof.
  intros f. unfold process.
  assert (Hdone : Done false None st = Done ch e st' ->
            (ch = false -> st' = st) /\ (ch = true -> alters f) /\ err_ok f e).
  { intros [= <- <- <-]. repeat split; auto using err_ok_None. discriminate. }
  destruct (negb (IsValid (ValueOf s))); [exact Hdone|].
  destruct (negb (bool_decide (TypeOf_Kind s st = KPtr))).
  { intros [= <- <- <-]. split; [auto|]. split; [discriminate|].
    intros x [= <-]. right. reflexivity. }
  destruct (negb (isValidSettable (Elem (ValueOf s) st))); [exact Hdone|].
  cbn [makeFieldProcessor converter_ parseOptions]. fold f.
  unfold convertStruct, convertStruct_body. destruct (negb _).
  { intros [= <- <- <-]. split; [auto|]. split; [discriminate|].
    intros x [= <-]. right. reflexivity. }
  intros H.
  apply (convertStruct_loop_facts f (convert depth) (convert_facts depth f)) in H
    as (_ & H2 & H3 & H4); [|apply err_ok_None].
  split; [exact H2|]. split; [|exact H4].
  intros Hc. destruct (H3 Hc); [discriminate | assumption].
Qed.

(** ** Below an unexported field *)

Lemma sticky_CanSet v : sticky v -> CanSet v = false.
Proof.
  destruct v as [|[a s e] l]; [reflexivity|]. simpl. intros ->.
  unfold flagRO. simpl. apply andb_false_r.
Qed.

Lemma sticky_Elem v st : sticky v -> sticky (Elem v st).
Proof.
  destruct v as [|fl l]; [auto|]. simpl. intros H.
  destruct (st !! l) as [[| [t|] | | | | | |]|]; simpl; auto.
Qed.

Lemma sticky_Field v i st : sticky v -> sticky (Field v i st).
Proof.
  destruct v as [|fl l]; [auto|]. simpl. intros H.
  destruct (st !! l) as [[| | | | | |fs|]|]; simpl; auto.
  destruct (fs !! i) as [[sf t]|]; simpl; auto. rewrite H. reflexivity.
Qed.

Lemma sticky_Index v i st : sticky v -> sticky (Index v i st).
Proof.
  destruct v as [|fl l]; [auto|]. simpl. intros H.
  destruct (st !! l) as [[| |es|es| | | |]|]; simpl; auto;
    destruct (es !! i); simpl; auto; unfold ro, flagRO; rewrite H; reflexivity.
Qed.

Section Quiet.

Variable f : fieldProcessor.

Lemma convertString_quiet v st : sticky v -> quiet st (convertString f v st).
Proof.
  intros H. unfold convertString, isValidSettable.
  rewrite (sticky_CanSet v H), andb_false_r. simpl. auto.
Qed.

Lemma convertMap_quiet v st : sticky v -> quiet st (convertMap f v st).
Proof.
  intros H. unfold convertMap. rewrite (sticky_CanSet v H).
  repeat (match goal with |- context [if ?b then _ else _] => destruct b end;
          try (simpl; auto; fail)).
Qed.

Section QuietLoops.

Variable conv : fieldProcessor -> Value -> store -> outcome.
Hypothesis conv_quiet : forall v st, sticky v -> quiet st (conv f v st).

Lemma convertSlice_loop_quiet v idxs err st :
  sticky v -> quiet st (convertSlice_loop conv f v idxs false err st).
Proof.
  intros H. induction idxs as [|i rest IH]; simpl; [auto|].
  pose proof (conv_quiet (Index v i st) st (sticky_Index v i st H)) as Hq.
  destruct (conv f (Index v i st) st) as [fc [e|] st1| |]; simpl in Hq;
    try contradiction; try exact Hq.
  - destruct Hq as [-> ->]. simpl. auto.
  - destruct Hq as [-> ->]. exact IH.
Qed.

Lemma convertStruct_loop_quiet v idxs st :
  sticky v -> forall err, quiet st (convertStruct_loop conv f v idxs false err st).
Proof.
  intros H. induction idxs as [|i rest IH]; intros err; simpl; [auto|].
  destruct (negb (isStruct (Field v i st) st) && _); [apply IH|].
  pose proof (conv_quiet (Field v i st) st (sticky_Field v i st H)) as Hq.
  destruct (conv f (Field v i st) st) as [fc [e|] st1| |]; simpl in Hq;
    try contradiction; try exact Hq.
  - destruct Hq as [-> ->]. simpl. auto.
  - destruct Hq as [-> ->]. apply IH.
Qed.

End QuietLoops.

Lemma convert_quiet depth : forall v st, sticky v -> quiet st (convert depth f v st).
Proof.
  induction depth as [|d IH]; intros v st H; [reflexivity|].
  cbn [convert]. destruct (Kind_of v st); try (simpl; auto; fail).
  - unfold convertSlice_body. destruct (negb _); [simpl; auto|].
    apply convertSlice_loop_quiet; auto.
  - apply convertMap_quiet, H.
  - apply IH, sticky_Elem, H.
  - unfold convertSlice_body. destruct (negb _); [simpl; auto|].
    apply convertSlice_loop_quiet; auto.
  - apply convertString_quiet, H.
  - unfold convertStruct_body. destruct (negb _); [simpl; auto|].
    apply convertStruct_loop_quiet; auto.
Qed.

End Quiet.

(** ** A validation that reports no change

    When the validating traversal returns [changed = false], the converting
    one takes the same path, rewrites every string with itself and returns
    the same. *)

Lemma convertMap_loop_mono f v keys :
  forall err st c e st',
    convertMap_loop f v keys true err st = Done c e st' -> c = true.
Proof.
  induction keys as [|k rest IH]; intros err st c e st'; simpl.
  { intros [= <- _ _]. reflexivity. }
  destruct (renderString f _) as [md [x|]]; [intros [= <- _ _]; reflexivity|].
  destruct (negb _); [|apply IH].
  destruct (ValidateOnly f); [apply IH|].
  destruct (SetMapIndex v k md st); [apply IH | discriminate].
Qed.

Lemma convertSlice_loop_mono conv f v idxs :
  forall err st c e st',
    convertSlice_loop conv f v idxs true err st = Done c e st' -> c = true.
Proof.
  induction idxs as [|i rest IH]; intros err st c e st'; simpl.
  { intros [= <- _ _]. reflexivity. }
  destruct (conv f _ st) as [fc [x|] st1| |]; try discriminate;
    rewrite orb_true_r; [intros [= <- _ _]; reflexivity | apply IH].
Qed.

Lemma convertStruct_loop_mono conv f v idxs :
  forall err st c e st',
    convertStruct_loop conv f v idxs true err st = Done c e st' -> c = true.
Proof.
  induction idxs as [|i rest IH]; intros err st c e st'; simpl.
  { intros [= <- _ _]. reflexivity. }
  destruct (negb (isStruct (Field v i st) st) && _); [apply IH|].
  destruct (conv f _ st) as [fc [x|] st1| |]; try discriminate;
    rewrite orb_true_r; [intros [= <- _ _]; reflexivity | apply IH].
Qed.

Section DryRun.

Variable c : converter.
Variable opts : list ParseOption.
Variable allFields : bool.

Let fv : fieldProcessor :=
  {| ConvertAllFields := allFields; ValidateOnly := true;
     converter_ := c; parseOptions := opts |}.
Let fc : fieldProcessor :=
  {| ConvertAllFields := allFields; ValidateOnly := false;
     converter_ := c; parseOptions := opts |}.

Lemma convertString_dry v st e st' :
  Kind_of v st = KString ->
  convertString fv v st = Done false e st' ->
  convertString fc v st = Done false e st.
Proof.
  intros Hk. unfold convertString.
  destruct (isValidSettable v) eqn:Hset; cbn [negb];
    [|intros [= <- _]; reflexivity].
  change (renderString fc) with (renderString fv).
  destruct (renderString fv (String_of v st)) as [rendered [x|]];
    [intros [= <- _]; reflexivity|].
  subst fv fc. cbn [ValidateOnly]. intros [= Hn <- _]. rewrite Hn.
  apply negb_false_iff, String.eqb_eq in Hn.
  destruct v as [|fl l]; [discriminate Hset|].
  unfold isValidSettable in Hset. cbn [IsValid andb] in Hset.
  unfold SetString, String_of, Kind_of in *. cbn [cellOf] in *. rewrite Hset.
  destruct (st !! l) as [[s0| | | | | | |k ?]|] eqn:Hl; try discriminate Hk;
    [|destruct k; discriminate Hk].
  subst rendered. rewrite list_insert_id by exact Hl. reflexivity.
Qed.

Lemma convertMap_loop_dry v keys :
  forall changed err st e st',
    convertMap_loop fv v keys changed err st = Done false e st' ->
    convertMap_loop fc v keys changed err st = Done false e st.
Proof.
  induction keys as [|k rest IH]; intros changed err st e st'; simpl.
  { intros [= -> <- _]. reflexivity. }
  change (renderString fc) with (renderString fv).
  destruct (renderString fv _) as [md [x|]];
    [intros [= -> <- _]; reflexivity|].
  destruct (negb _).
  - intros H. apply convertMap_loop_mono in H. discriminate H.
  - apply IH.
Qed.

Lemma convertMap_dry v st e st' :
  convertMap fv v st = Done false e st' ->
  convertMap fc v st = Done false e st.
Proof.
  unfold convertMap.
  repeat (match goal with |- context [if ?b then _ else _] => destruct b end;
          try (intros [= <- _]; reflexivity)).
  apply convertMap_loop_dry.
Qed.

Section DryLoops.

Variable conv : fieldProcessor -> Value -> store -> outcome.
Hypothesis conv_validate : forall v st, storeOf (conv fv v st) = st.
Hypothesis conv_dry :
  forall v st e st',
    conv fv v st = Done false e st' -> conv fc v st = Done false e st.

Lemma convertSlice_loop_dry v idxs :
  forall changed err st e st',
    convertSlice_loop conv fv v idxs changed err st = Done false e st' ->
    convertSlice_loop conv fc v idxs changed err st = Done false e st.
Proof.
  induction idxs as [|i rest IH]; intros changed err st e st'; simpl.
  { intros [= -> <- _]. reflexivity. }
  pose proof (conv_validate (Index v i st) st) as Hst.
  destruct (conv fv (Index v i st) st) as [c1 e1 st1| |] eqn:Hc;
    try discriminate. simpl in Hst. subst st1.
  destruct c1.
  { destruct e1; [intros [= ? _]; discriminate|].
    intros H. apply convertSlice_loop_mono in H. discriminate H. }
  rewrite (conv_dry _ _ _ _ Hc). destruct e1 as [x|].
  - intros [= -> <- _]. reflexivity.
  - apply IH.
Qed.

Lemma convertStruct_loop_dry v idxs :
  forall changed err st e st',
    convertStruct_loop conv fv v idxs changed err st = Done false e st' ->
    convertStruct_loop conv fc v idxs changed err st = Done false e st.
Proof.
  induction idxs as [|i rest IH]; intros changed err st e st'; simpl.
  { intros [= -> <- _]. reflexivity. }
  change (ConvertAllFields fc) with (ConvertAllFields fv).
  destruct (negb (isStruct (Field v i st) st) && _); [apply IH|].
  pose proof (conv_validate (Field v i st) st) as Hst.
  destruct (conv fv (Field v i st) st) as [c1 e1 st1| |] eqn:Hc;
    try discriminate. simpl in Hst. subst st1.
  destruct c1.
  { destruct e1; [intros [= ? _]; discriminate|].
    intros H. apply convertStruct_loop_mono in H. discriminate H. }
  rewrite (conv_dry _ _ _ _ Hc). destruct e1 as [x|].
  - intros [= -> <- _]. reflexivity.
  - apply IH.
Qed.

End DryLoops.

Lemma convert_dry depth :
  forall v st e st',
    convert depth fv v st = Done false e st' ->
    convert depth fc v st = Done false e st.
Proof.
  induction depth as [|d IH]; intros v st e st'; [discriminate|].
  cbn [convert]. destruct (Kind_of v st) eqn:Hk;
    try (intros [= <- _]; reflexivity).
  - unfold convertSlice_body. destruct (negb _);
      [intros [= <- _]; reflexivity|].
    apply convertSlice_loop_dry; [|exact IH].
    intros; apply convert_validate; reflexivity.
  - apply convertMap_dry.
  - apply IH.
  - unfold convertSlice_body. destruct (negb _);
      [intros [= <- _]; reflexivity|].
    apply convertSlice_loop_dry; [|exact IH].
    intros; apply convert_validate; reflexivity.
  - apply convertString_dry, Hk.
  - unfold convertStruct_body. destruct (negb _);
      [intros [= <- _]; reflexivity|].
    apply convertStruct_loop_dry; [|exact IH].
    intros; apply convert_validate; reflexivity.
Qed.

Lemma process_dry depth s st e st' :
  process depth c s allFields true opts st = Done false e st' ->
  process depth c s allFields false opts st = Done false e st.
Proof.
  unfold process.
  repeat (match goal with |- context [if ?b then _ else _] => destruct b end;
          try (intros [= <- _]; reflexivity)).
  cbn [makeFieldProcessor converter_ parseOptions]. fold fv fc.
  unfold convertStruct, convertStruct_body. destruct (negb _);
    [intros [= <- _]; reflexivity|].
  apply convertStruct_loop_dry; [|apply convert_dry].
  intros; apply convert_validate; reflexivity.
Qed.

End DryRun.


(** ** Only texts change *)

Lemma key_match_eq k k' : key_match k k' = true -> k = k' /\ is_nan k = false.
Proof.
  unfold key_match. intros [Hn He]%andb_true_iff.
  apply negb_true_iff in Hn. apply bool_decide_eq_true in He. auto.
Qed.

Lemma key_match_refl k : is_nan k = false -> key_match k k = true.
Proof.
  unfold key_match. intros ->. rewrite bool_decide_eq_true_2 by reflexivity.
  reflexivity.
Qed.

(** A key the map does not find, although it lists it, is not equal to
    itself. *)
Lemma assoc_get_None_nan k (es : list (MapKey * string)) :
  k ∈ es.*1 -> assoc_get k es = None -> is_nan k = true.
Proof.
  induction es as [|[k0 s0] es IH]; cbn [assoc_get].
  - intros H. inversion H.
  - rewrite fmap_cons. cbn [fst]. intros Hin.
    destruct (key_match k k0) eqn:Hm; [discriminate|]. intros Hg.
    apply elem_of_cons in Hin as [->|Hin]; [|exact (IH Hin Hg)].
    destruct (is_nan k0) eqn:Hn; [reflexivity|].
    rewrite key_match_refl in Hm by exact Hn. discriminate.
Qed.

Lemma assoc_set_absent k md (es : list (MapKey * string)) :
  assoc_get k es = None -> assoc_set k md es = es ++ [(k, md)].
Proof.
  induction es as [|[k0 s0] es IH]; cbn [assoc_get assoc_set app];
    [reflexivity|].
  destruct (key_match k k0); [discriminate|]. intros H. rewrite (IH H).
  reflexivity.
Qed.

Section Evolves.

Variable f : fieldProcessor.

Lemma text_evolves_refl s : text_evolves f s s.
Proof. left; reflexivity. Qed.

Lemma text_evolves_trans s1 s2 s3 :
  text_evolves f s1 s2 -> text_evolves f s2 s3 -> text_evolves f s1 s3.
Proof. intros H1 [->|H2]; [exact H1 | right; exact H2]. Qed.

Lemma entry_evolves_refl a : entry_evolves f a a.
Proof. split; [reflexivity | apply text_evolves_refl]. Qed.

Lemma entry_evolves_trans a b c :
  entry_evolves f a b -> entry_evolves f b c -> entry_evolves f a c.
Proof.
  intros [H1 H2] [H3 H4]. split; [congruence|].
  eapply text_evolves_trans; eauto.
Qed.

Lemma kept_refl (es : list (MapKey * string)) : Forall2 (entry_evolves f) es es.
Proof. induction es; constructor; auto using entry_evolves_refl. Qed.

Lemma kept_trans (es1 es2 es3 : list (MapKey * string)) :
  Forall2 (entry_evolves f) es1 es2 -> Forall2 (entry_evolves f) es2 es3 ->
  Forall2 (entry_evolves f) es1 es3.
Proof.
  intros H. revert es3. induction H as [|a b l k Hab _ IH]; intros es3 H2;
    inversion H2 as [|b' c' k' l3 Hbc Hrest]; subst; constructor.
  - eapply entry_evolves_trans; eauto.
  - apply IH, Hrest.
Qed.

Lemma kept_nan (es es' : list (MapKey * string)) :
  Forall2 (entry_evolves f) es es' ->
  Exists (fun kv => is_nan kv.1 = true) es' ->
  Exists (fun kv => is_nan kv.1 = true) es.
Proof.
  induction 1 as [|a b l k [Hk _] _ IH]; intros Hex; inversion Hex; subst.
  - left. rewrite Hk. assumption.
  - right. auto.
Qed.

Lemma added_evolves (xs ys : list (MapKey * string)) :
  Forall (entry_added f) xs -> Forall2 (entry_evolves f) xs ys ->
  Forall (entry_added f) ys.
Proof.
  intros Hx H. induction H as [|a b l k [Hk Ht] _ IH]; [constructor|].
  inversion Hx as [|? ? [Hn Ho] Hrest]; subst. constructor; [|auto].
  split; [rewrite <- Hk; exact Hn|]. destruct Ht as [->|Ht]; assumption.
Qed.

Lemma entries_evolve_refl es : entries_evolve f es es.
Proof.
  exists es, []. rewrite app_nil_r. split; [reflexivity|].
  split; [apply kept_refl|]. split; [constructor | congruence].
Qed.

Lemma entries_evolve_trans es1 es2 es3 :
  entries_evolve f es1 es2 -> entries_evolve f es2 es3 ->
  entries_evolve f es1 es3.
Proof.
  intros (k1 & a1 & -> & Hk1 & Ha1 & Hn1) (k2 & a2 & -> & Hk2 & Ha2 & Hn2).
  apply Forall2_app_inv_l in Hk2 as (k2a & k2b & Hka & Hkb & ->).
  exists k2a, (k2b ++ a2). rewrite app_assoc. split; [reflexivity|].
  split; [eapply kept_trans; eauto|]. split.
  - apply Forall_app_2; [exact (added_evolves _ _ Ha1 Hkb) | exact Ha2].
  - intros Hne. destruct a1 as [|x a1].
    + inversion Hkb; subst. rewrite app_nil_r in Hn2. simpl in Hne.
      eapply kept_nan; [exact Hk1|]. apply Hn2, Hne.
    + apply Hn1. discriminate.
Qed.

Lemma cell_evolves_refl c : cell_evolves f c c.
Proof.
  destruct c; simpl; auto using text_evolves_refl, entries_evolve_refl.
Qed.

Lemma cell_evolves_trans c1 c2 c3 :
  cell_evolves f c1 c2 -> cell_evolves f c2 c3 -> cell_evolves f c1 c3.
Proof.
  destruct c1, c2; simpl; try discriminate; intros H1;
    try (injection H1 as; subst); try (subst; auto; fail);
    destruct c3; simpl; try discriminate; auto.
  - apply text_evolves_trans, H1.
  - apply entries_evolve_trans, H1.
Qed.

Lemma store_evolves_refl st : store_evolves f st st.
Proof. induction st; constructor; auto using cell_evolves_refl. Qed.

Lemma store_evolves_trans st1 st2 st3 :
  store_evolves f st1 st2 -> store_evolves f st2 st3 -> store_evolves f st1 st3.
Proof.
  intros H. revert st3. induction H as [|a b l k Hc _ IH]; intros st3 H2;
    inversion H2 as [|b' c' k' l3 Hc' Hrest]; subst; constructor.
  - eapply cell_evolves_trans; eauto.
  - apply IH, Hrest.
Qed.

Lemma store_evolves_insert st l c c' :
  st !! l = Some c -> cell_evolves f c c' -> store_evolves f st (<[l := c']> st).
Proof.
  intros Hl Hc. rewrite <- (list_insert_id st l c) at 1 by exact Hl.
  apply Forall2_insert; [apply store_evolves_refl | exact Hc].
Qed.

Lemma convertString_evolves v st :
  store_evolves f st (storeOf (convertString f v st)).
Proof.
  unfold convertString. destruct (negb (isValidSettable v));
    [apply store_evolves_refl|].
  destruct (renderString f (String_of v st)) as [rendered [x|]] eqn:Hr;
    [apply store_evolves_refl|].
  destruct (ValidateOnly f); [apply store_evolves_refl|].
  destruct v as [|fl l]; [apply store_evolves_refl|].
  unfold SetString. destruct (CanSet (Val fl l)); [|apply store_evolves_refl].
  destruct (st !! l) as [[s0| | | | | | |]|] eqn:Hl;
    try apply store_evolves_refl.
  simpl. eapply store_evolves_insert; [exact Hl|]. simpl. right. eauto.
Qed.

Lemma assoc_set_found k md (es : list (MapKey * string)) :
  is_Some (assoc_get k es) ->
  (exists x, renderString f x = (md, None)) ->
  Forall2 (entry_evolves f) es (assoc_set k md es).
Proof.
  intros Hk Hmd. induction es as [|[k0 s0] es IH]; cbn [assoc_get assoc_set] in *.
  - destruct Hk; discriminate.
  - destruct (key_match k k0).
    + constructor; [split; [reflexivity | right; exact Hmd]|]. apply kept_refl.
    + constructor; [apply entry_evolves_refl | apply IH, Hk].
Qed.

Lemma assoc_set_evolves k md (es : list (MapKey * string)) :
  k ∈ es.*1 ->
  (exists x, renderString f x = (md, None)) ->
  entries_evolve f es (assoc_set k md es).
Proof.
  intros Hin Hmd. destruct (assoc_get k es) as [s|] eqn:Hg.
  - exists (assoc_set k md es), []. rewrite app_nil_r. split; [reflexivity|].
    split; [apply assoc_set_found; eauto|]. split; [constructor | congruence].
  - pose proof (assoc_get_None_nan k es Hin Hg) as Hn.
    exists es, [(k, md)]. split; [apply assoc_set_absent, Hg|].
    split; [apply kept_refl|]. split.
    + constructor; [split; assumption | constructor].
    + intros _. apply list_elem_of_fmap in Hin as ([k' s'] & -> & Hin).
      apply Exists_exists. exists (k', s'). split; [|exact Hn].
      exact Hin.
Qed.

Lemma assoc_set_keeps_keys k k' md (es : list (MapKey * string)) :
  k' ∈ es.*1 -> k' ∈ (assoc_set k md es).*1.
Proof.
  induction es as [|[k0 s0] es IH]; cbn [assoc_set].
  - intros H. inversion H.
  - destruct (key_match k k0); rewrite !fmap_cons; cbn [fst];
      intros [->|H]%elem_of_cons; try (left; fail); right; auto.
Qed.

Lemma convertMap_loop_evolves fl l t m keys :
  forall changed err st es,
    st !! l = Some (CMap t (Some m)) ->
    st !! m = Some (CMapObj es) ->
    Forall (fun k => k ∈ es.*1) keys ->
    store_evolves f st
      (storeOf (convertMap_loop f (Val fl l) keys changed err st)).
Proof.
  induction keys as [|k rest IH]; intros changed err st es Hl Hm Hkeys.
  { apply store_evolves_refl. }
  apply Forall_cons in Hkeys as [Hk Hrest].
  cbn [convertMap_loop].
  destruct (renderString f (MapValue_String (MapIndex (Val fl l) k st)))
    as [md [x|]] eqn:Hr; [apply store_evolves_refl|].
  destruct (negb (_ =? md)); [|eapply IH; eauto].
  destruct (ValidateOnly f) eqn:Hv; [eapply IH; eauto|].
  unfold SetMapIndex. destruct (flagRO fl); [apply store_evolves_refl|].
  rewrite Hl. destruct t; [|apply store_evolves_refl]. rewrite Hm.
  apply (store_evolves_trans _ (<[m := CMapObj (assoc_set k md es)]> st)).
  - eapply (store_evolves_insert st m); [exact Hm|]. simpl.
    apply assoc_set_evolves; eauto.
  - eapply IH.
    + rewrite list_lookup_insert_ne by congruence. exact Hl.
    + apply list_lookup_insert_eq. eapply lookup_lt_Some; eauto.
    + eapply Forall_impl; [exact Hrest|]. intros k'. apply assoc_set_keeps_keys.
Qed.

Lemma convertMap_evolves v st :
  store_evolves f st (storeOf (convertMap f v st)).
Proof.
  unfold convertMap.
  repeat (match goal with |- context [if ?b then _ else _] => destruct b end;
          try apply store_evolves_refl).
  destruct v as [|fl l]; [apply store_evolves_refl|].
  unfold MapKeys, mapObj. cbn [cellOf].
  destruct (st !! l) as [[| | | |t [m|]| | |]|] eqn:Hl;
    try apply store_evolves_refl.
  destruct (st !! m) as [[| | | | |es| |]|] eqn:Hm;
    try apply store_evolves_refl.
  eapply convertMap_loop_evolves; eauto.
  apply Forall_forall. auto.
Qed.

Section EvolvesLoops.

Variable conv : fieldProcessor -> Value -> store -> outcome.
Hypothesis conv_evolves :
  forall v st, store_evolves f st (storeOf (conv f v st)).

Lemma convertSlice_loop_evolves v idxs :
  forall changed err st,
    store_evolves f st (storeOf (convertSlice_loop conv f v idxs changed err st)).
Proof.
  induction idxs as [|i rest IH]; intros changed err st; simpl.
  { apply store_evolves_refl. }
  pose proof (conv_evolves (Index v i st) st) as Hc.
  destruct (conv f (Index v i st) st) as [fc [x|] st1| |]; simpl in Hc;
    try exact Hc.
  eapply store_evolves_trans; [exact Hc | apply IH].
Qed.

Lemma convertStruct_loop_evolves v idxs :
  forall changed err st,
    store_evolves f st (storeOf (convertStruct_loop conv f v idxs changed err st)).
Proof.
  induction idxs as [|i rest IH]; intros changed err st; simpl.
  { apply store_evolves_refl. }
  destruct (negb (isStruct (Field v i st) st) && _); [apply IH|].
  pose proof (conv_evolves (Field v i st) st) as Hc.
  destruct (conv f (Field v i st) st) as [fc [x|] st1| |]; simpl in Hc;
    try exact Hc.
  eapply store_evolves_trans; [exact Hc | apply IH].
Qed.

End EvolvesLoops.

Lemma convert_evolves depth :
  forall v st, store_evolves f st (storeOf (convert depth f v st)).
Proof.
  induction depth as [|d IH]; intros v st; [apply store_evolves_refl|].
  cbn [convert]. destruct (Kind_of v st); try apply store_evolves_refl.
  - unfold convertSlice_body. destruct (negb _); [apply store_evolves_refl|].
    apply convertSlice_loop_evolves, IH.
  - apply convertMap_evolves.
  - apply IH.
  - unfold convertSlice_body. destruct (negb _); [apply store_evolves_refl|].
    apply convertSlice_loop_evolves, IH.
  - apply convertString_evolves.
  - unfold convertStruct_body. destruct (negb _); [apply store_evolves_refl|].
    apply convertStruct_loop_evolves, IH.
Qed.

End Evolves.

Lemma process_evolves depth c s allFields validateOnly opts st :
  store_evolves
    {| ConvertAllFields := allFields; ValidateOnly := validateOnly;
       converter_ := c; parseOptions := opts |}
    st (storeOf (process depth c s allFields validateOnly opts st)).
Proof.
  unfold process.
  repeat (match goal with |- context [if ?b then _ else _] => destruct b end;
          try apply store_evolves_refl).
  unfold convertStruct, convertStruct_body. destruct (negb _);
    [apply store_evolves_refl|].
  apply convertStruct_loop_evolves. intros v st'. apply convert_evolves.
Qed.

(** What [store_evolves] says of each variable. *)
Lemma store_evolves_reading f st st' :
  store_evolves f st st' ->
  length st' = length st
  /\ (forall l c, st !! l = Some c ->
        match c with
        | CString s =>
            exists s', st' !! l = Some (CString s')
              /\ (s' = s \/ exists x, renderString f x = (s', None))
        | CMapObj es =>
            exists kept added,
              st' !! l = Some (CMapObj (kept ++ added))
              /\ kept.*1 = es.*1
              /\ Forall2 (fun a b : MapKey * string =>
                            b.2 = a.2 \/ exists x, renderString f x = (b.2, None))
                   es kept
              /\ Forall (fun kv : MapKey * string =>
                           is_nan kv.1 = true
                           /\ exists x, renderString f x = (kv.2, None)) added
              /\ (Forall (fun kv : MapKey * string => is_nan kv.1 = false) es ->
                  added = [])
        | _ => st' !! l = Some c
        end).
Proof.
  intros H. split; [symmetry; eapply Forall2_length, H|].
  intros l c Hl.
  destruct (Forall2_lookup_l _ _ _ _ _ H Hl) as (c' & Hl' & Hc).
  destruct c, c'; simpl in Hc; try discriminate; try (subst; exact Hl');
    try (injection Hc as; subst; exact Hl').
  - eauto.
  - destruct Hc as (kept & added & -> & Hk & Ha & Hn).
    exists kept, added. split; [exact Hl'|]. split; [|split; [|split]].
    + clear -Hk. induction Hk as [|[] [] ? ? [Hk _] _ IH]; [reflexivity|].
      rewrite !fmap_cons. simpl in *. rewrite Hk, IH. reflexivity.
    + eapply Forall2_impl; [exact Hk|]. intros a b [_ Ht]. exact Ht.
    + exact Ha.
    + intros Hno. destruct added as [|x added]; [reflexivity|].
      assert (Hex : Exists (fun kv : MapKey * string => is_nan kv.1 = true) entries)
        by (apply Hn; discriminate).
      apply Exists_exists in Hex as (kv & Hin & Hnan).
      rewrite Forall_forall in Hno. rewrite (Hno kv Hin) in Hnan. discriminate.
Qed.

Lemma string_maps_plain_evolves f st st' :
  store_evolves f st st' -> string_maps_plain st -> string_maps_plain st'.
Proof.
  intros H Hp l t obj Hl' Hk.
  destruct (Forall2_lookup_r _ _ _ _ _ H Hl') as (c & Hl & Hc).
  destruct c; simpl in Hc; try discriminate; injection Hc as <- <-.
  exact (Hp l _ _ Hl Hk).
Qed.

(** ** No panic

    [convert] hands [convertString] strings only, and [convertString] checks
    settability before it writes, so [SetString] never panics.  The one
    panic left is that of [SetMapIndex] in [convertMap]: the guard of
    [convertMap] looks at the kind of the element type, which is [String]
    for a named string type as well, and [reflect.ValueOf(mdstr)] is a
    plain [string], which cannot be assigned to such an element.  With
    [ValidateOnly], or when the string maps of the data are all maps of
    plain strings, nothing panics. *)

Lemma panic_free_evolves f st st' :
  store_evolves f st st' -> panic_free f st -> panic_free f st'.
Proof.
  intros H [Hv|Hp]; [left; exact Hv | right].
  eapply string_maps_plain_evolves; eauto.
Qed.

Lemma convertString_no_panic f v st :
  Kind_of v st = KString -> panicked (convertString f v st) = false.
Proof.
  intros Hk. unfold convertString.
  destruct (isValidSettable v) eqn:Hset; [|reflexivity]. cbn [negb].
  destruct (renderString f (String_of v st)) as [rendered [e|]]; [reflexivity|].
  destruct (ValidateOnly f); [reflexivity|].
  destruct v as [|fl l]; [discriminate Hset|].
  unfold isValidSettable in Hset. cbn [IsValid andb] in Hset.
  unfold SetString. rewrite Hset.
  unfold Kind_of in Hk. cbn [cellOf] in Hk.
  destruct (st !! l) as [[| | | | | | |k ?]|]; try discriminate Hk;
    [reflexivity | destruct k; discriminate Hk].
Qed.

Lemma convertMap_loop_validate_no_panic f v keys :
  ValidateOnly f = true ->
  forall changed err st,
    panicked (convertMap_loop f v keys changed err st) = false.
Proof.
  intros Hv. induction keys as [|k rest IH]; intros changed err st; simpl.
  - reflexivity.
  - destruct (renderString f (MapValue_String (MapIndex v k st))) as [md [e|]];
      [reflexivity|].
    rewrite Hv. destruct (negb _); apply IH.
Qed.

Lemma convertMap_loop_plain_no_panic f fl l m keys :
  flagRO fl = false ->
  forall changed err st es,
    st !! l = Some (CMap TString (Some m)) ->
    st !! m = Some (CMapObj es) ->
    panicked (convertMap_loop f (Val fl l) keys changed err st) = false.
Proof.
  intros Hro. induction keys as [|k rest IH]; intros changed err st es Hl Hm.
  { reflexivity. }
  cbn [convertMap_loop].
  destruct (renderString f (MapValue_String (MapIndex (Val fl l) k st)))
    as [md [e|]]; [reflexivity|].
  destruct (negb _); [|eapply IH; eauto].
  destruct (ValidateOnly f); [eapply IH; eauto|].
  unfold SetMapIndex. rewrite Hro, Hl, Hm.
  eapply IH.
  - rewrite list_lookup_insert_ne by congruence. exact Hl.
  - apply list_lookup_insert_eq. eapply lookup_lt_Some; eauto.
Qed.

Lemma convertMap_no_panic f v st :
  panic_free f st -> panicked (convertMap f v st) = false.
Proof.
  intros Hfree. unfold convertMap.
  destruct (negb (bool_decide (Kind_of v st = KMap))); [reflexivity|].
  destruct (bool_decide (Type_Elem_Kind v st = KString)) eqn:Ht; [|reflexivity].
  cbn [negb]. destruct (CanSet v) eqn:Hset; [|reflexivity]. cbn [negb].
  destruct Hfree as [Hv|Hp]; [apply convertMap_loop_validate_no_panic, Hv|].
  apply bool_decide_eq_true in Ht.
  destruct v as [|fl l]; [reflexivity|].
  unfold Type_Elem_Kind in Ht. unfold MapKeys, mapObj. cbn [cellOf] in *.
  destruct (st !! l) as [[| | | |t [m|]| | |]|] eqn:Hl; try reflexivity.
  destruct (st !! m) as [[| | | | |es| |]|] eqn:Hm; try reflexivity.
  rewrite (Hp l t (Some m) Hl Ht) in Hl.
  eapply convertMap_loop_plain_no_panic; eauto.
  unfold CanSet in Hset. apply andb_true_iff in Hset as [_ Hro].
  apply negb_true_iff in Hro. exact Hro.
Qed.

Section NoPanic.

Variable f : fieldProcessor.
Variable conv : fieldProcessor -> Value -> store -> outcome.
Hypothesis conv_no_panic :
  forall v st, panic_free f st -> panicked (conv f v st) = false.
Hypothesis conv_evolves :
  forall v st, store_evolves f st (storeOf (conv f v st)).

Lemma convertSlice_loop_no_panic v idxs :
  forall changed err st,
    panic_free f st ->
    panicked (convertSlice_loop conv f v idxs changed err st) = false.
Proof.
  induction idxs as [|i rest IH]; intros changed err st Hfree; simpl.
  - reflexivity.
  - pose proof (conv_no_panic (Index v i st) st Hfree) as Hc.
    pose proof (conv_evolves (Index v i st) st) as He.
    destruct (conv f (Index v i st) st) as [fc [e|] st1 | st1 | st1];
      try reflexivity; [|discriminate Hc].
    apply IH. eapply panic_free_evolves; eauto.
Qed.

Lemma convertStruct_loop_no_panic v idxs :
  forall changed err st,
    panic_free f st ->
    panicked (convertStruct_loop conv f v idxs changed err st) = false.
Proof.
  induction idxs as [|i rest IH]; intros changed err st Hfree; simpl.
  - reflexivity.
  - destruct (negb (isStruct (Field v i st) st) && _); [apply IH, Hfree|].
    pose proof (conv_no_panic (Field v i st) st Hfree) as Hc.
    pose proof (conv_evolves (Field v i st) st) as He.
    destruct (conv f (Field v i st) st) as [fc [e|] st1 | st1 | st1];
      try reflexivity; [|discriminate Hc].
    apply IH. eapply panic_free_evolves; eauto.
Qed.

End NoPanic.

Lemma convert_no_panic depth f :
  forall v st, panic_free f st -> panicked (convert depth f v st) = false.
Proof.
  induction depth as [|d IH]; intros v st Hfree; [reflexivity|].
  cbn [convert]. destruct (Kind_of v st) eqn:Hk; try reflexivity.
  - unfold convertSlice_body. destruct (negb _); [reflexivity|].
    apply convertSlice_loop_no_panic; auto using convert_evolves.
  - apply convertMap_no_panic, Hfree.
  - apply IH, Hfree.
  - unfold convertSlice_body. destruct (negb _); [reflexivity|].
    apply convertSlice_loop_no_panic; auto using convert_evolves.
  - apply convertString_no_panic, Hk.
  - unfold convertStruct_body. destruct (negb _); [reflexivity|].
    apply convertStruct_loop_no_panic; auto using convert_evolves.
Qed.

Lemma process_no_panic depth c s allFields validateOnly opts st :
  validateOnly = true \/ string_maps_plain st ->
  panicked (process depth c s allFields validateOnly opts st) = false.
Proof.
  intros Hfree. unfold process.
  repeat (match goal with |- context [if ?b then _ else _] => destruct b end;
          try reflexivity).
  unfold convertStruct, convertStruct_body. destruct (negb _); [reflexivity|].
  apply convertStruct_loop_no_panic.
  - intros v st'. apply convert_no_panic.
  - intros v st'. apply convert_evolves.
  - exact Hfree.
Qed.

(** ** Validation and conversion report the same

    The validating processor [fv] runs in [st0] and leaves it alone; the
    converting processor [fc] runs in a store [stc] related to [st0].  Both
    take the same branches, because [reflect] answers alike in related
    stores, and a string that was rewritten is one the converter accepts
    again.  The maps are tidy: with no named string type for the elements
    [SetMapIndex] does not panic, and with no key that is not equal to
    itself the converting run finds the entries of the validating one. *)

Section Simulation.

Variable md : Markdown.
Variable opts : list ParseOption.
Variable allFields : bool.
Hypothesis accepts_own_output :
  forall x y, md opts x = (y, None) -> snd (md opts y) = None.

Let fv : fieldProcessor :=
  {| ConvertAllFields := allFields; ValidateOnly := true;
     converter_ := WithMarkdown md; parseOptions := opts |}.
Let fc : fieldProcessor :=
  {| ConvertAllFields := allFields; ValidateOnly := false;
     converter_ := WithMarkdown md; parseOptions := opts |}.

Local Abbreviation R := (rerendered md opts).
Local Notation "st0 ~ stc" := (rel_store md opts st0 stc) (at level 70).

Lemma rel_cell_refl c : rel_cell md opts c c.
Proof.
  destruct c; simpl; try reflexivity.
  - left; reflexivity.
  - induction entries; constructor; auto. split; [reflexivity | left; reflexivity].
Qed.

Lemma rel_store_refl st : st ~ st.
Proof. induction st; constructor; auto using rel_cell_refl. Qed.

Lemma rel_lookup st0 stc l :
  st0 ~ stc -> option_Forall2 (rel_cell md opts) (st0 !! l) (stc !! l).
Proof. intros H. apply Forall2_lookup, H. Qed.

Lemma rel_cellOf st0 stc v :
  st0 ~ stc -> option_Forall2 (rel_cell md opts) (cellOf v st0) (cellOf v stc).
Proof. destruct v; simpl; [constructor | apply rel_lookup]. Qed.

Lemma rel_cell_kind c0 cc : rel_cell md opts c0 cc -> kindOf c0 = kindOf cc.
Proof. destruct c0, cc; simpl; congruence. Qed.

(** [reflect] cannot tell related stores apart. *)
Lemma rel_Kind_of st0 stc v : st0 ~ stc -> Kind_of v st0 = Kind_of v stc.
Proof.
  intros H. unfold Kind_of. pose proof (rel_cellOf _ _ v H) as X.
  destruct X as [c0 cc Hrel|]; [apply rel_cell_kind, Hrel | reflexivity].
Qed.

Ltac rel_op H l :=
  let X := fresh "X" in
  pose proof (rel_lookup _ _ l H) as X;
  inversion X as [c0 cc Hrel Hc0 Hcc | Hc0 Hcc]; clear X;
  rewrite <- ?Hc0, <- ?Hcc; [destruct c0, cc|];
  simpl in *; simplify_eq; try done.

Lemma rel_Elem st0 stc v : st0 ~ stc -> Elem v st0 = Elem v stc.
Proof. intros H. destruct v as [|fl l]; [reflexivity|]. simpl. rel_op H l. Qed.

Lemma rel_Field st0 stc v i : st0 ~ stc -> Field v i st0 = Field v i stc.
Proof. intros H. destruct v as [|fl l]; [reflexivity|]. simpl. rel_op H l. Qed.

Lemma rel_Index st0 stc v i : st0 ~ stc -> Index v i st0 = Index v i stc.
Proof. intros H. destruct v as [|fl l]; [reflexivity|]. simpl. rel_op H l. Qed.

Lemma rel_Len st0 stc v : st0 ~ stc -> Len v st0 = Len v stc.
Proof.
  intros H. destruct v as [|fl l]; [reflexivity|]. unfold Len. simpl. rel_op H l.
Qed.

Lemma rel_NumField st0 stc v : st0 ~ stc -> NumField v st0 = NumField v stc.
Proof.
  intros H. destruct v as [|fl l]; [reflexivity|]. unfold NumField. simpl. rel_op H l.
Qed.

Lemma rel_Type_Field st0 stc v i : st0 ~ stc -> Type_Field v i st0 = Type_Field v i stc.
Proof.
  intros H. destruct v as [|fl l]; [reflexivity|]. unfold Type_Field. simpl. rel_op H l.
Qed.

Lemma rel_Type_Elem_Kind st0 stc v :
  st0 ~ stc -> Type_Elem_Kind v st0 = Type_Elem_Kind v stc.
Proof.
  intros H. destruct v as [|fl l]; [reflexivity|]. unfold Type_Elem_Kind. simpl.
  rel_op H l.
Qed.

Lemma rel_isStruct st0 stc v : st0 ~ stc -> isStruct v st0 = isStruct v stc.
Proof.
  intros H. unfold isStruct.
  rewrite (rel_Kind_of _ _ v H), (rel_Elem _ _ v H),
    (rel_Kind_of _ _ (Elem v stc) H). reflexivity.
Qed.

Lemma rel_isStructFieldTagEnabled st0 stc v i :
  st0 ~ stc -> isStructFieldTagEnabled v i st0 = isStructFieldTagEnabled v i stc.
Proof.
  intros H. unfold isStructFieldTagEnabled.
  rewrite (rel_Kind_of _ _ v H), (rel_Type_Field _ _ v i H). reflexivity.
Qed.


Lemma rerendered_step s0 r : md opts s0 = (r, None) -> R s0 r.
Proof.
  intros Hr. destruct (decide (r = s0)) as [->|Hne]; [left; reflexivity|].
  right. split; eauto.
Qed.

Lemma rerendered_again s0 sc rc :
  R s0 sc -> sc <> s0 -> md opts sc = (rc, None) -> R s0 rc.
Proof.
  intros [->|[H1 _]] Hne Hr; [congruence|]. right. split; eauto.
Qed.

Lemma rerendered_dirty s0 sc :
  R s0 sc -> sc <> s0 ->
  (exists s1, md opts s0 = (s1, None) /\ s1 <> s0)
  /\ exists rc, md opts sc = (rc, None).
Proof.
  intros [->|[H1 [x Hx]]] Hne; [congruence|]. split; [exact H1|].
  pose proof (accepts_own_output _ _ Hx) as Hs.
  destruct (md opts sc) as [rc e]. simpl in Hs. subst e. eauto.
Qed.


Ltac agree_split :=
  simpl; refine (conj _ (conj _ (conj _ (conj _ (conj _ _))))).

Lemma agree_same st0 stc c e :
  st0 ~ stc -> agree md opts st0 stc false (Done c e st0) (Done c e stc) .
Proof. intros H. agree_split; auto. Qed.

(** The leaf: a string variable, clean or already rewritten. *)
Lemma convertString_sim st0 stc v :
  st0 ~ stc ->
  Kind_of v st0 = KString ->
  agree md opts st0 stc false (convertString fv v st0) (convertString fc v stc).
Proof.
  intros Hrel Hk. unfold convertString.
  destruct (isValidSettable v) eqn:Hset; cbn [negb].
  2:{ apply agree_same, Hrel. }
  destruct v as [|fl l]; [discriminate|].
  unfold isValidSettable in Hset. cbn [IsValid andb] in Hset.
  unfold Kind_of, String_of, SetString in *. cbn [cellOf] in *. rewrite Hset.
  pose proof (rel_lookup _ _ l Hrel) as X.
  inversion X as [c0 cc Hc Hc0 Hcc | Hc0 Hcc]; clear X;
    rewrite <- Hc0 in Hk; [|discriminate].
  rewrite <- ?Hc0, <- ?Hcc.
  destruct c0 as [s0| | | | | | |k ?]; try discriminate;
    [|destruct k; discriminate].
  destruct cc as [sc| | | | | | |]; simpl in Hc; try discriminate.
  unfold renderString, writeMarkdown. subst fv fc. cbn.
  destruct (decide (sc = s0)) as [->|Hne].
  - destruct (md opts s0) as [r [e|]] eqn:Hr.
    + apply agree_same, Hrel.
    + agree_split; auto.
      * rewrite <- (list_insert_id st0 l (CString s0)) by auto.
        apply Forall2_insert; [exact Hrel|]. simpl. apply rerendered_step, Hr.
      * intros Hf. apply negb_eqb_false in Hf. subst r.
        split; [|reflexivity]. apply list_insert_id. auto.
  - destruct (rerendered_dirty _ _ Hc Hne) as [[s1 [Hs1 Hne1]] [rc Hrc]].
    rewrite Hs1, Hrc. agree_split; auto.
    + rewrite <- (list_insert_id st0 l (CString s0)) by auto.
      apply Forall2_insert; [exact Hrel|]. simpl.
      eapply rerendered_again; eauto.
    + intros _. apply eqb_neq_true. congruence.
    + intros _. right. intros ->. congruence.
    + intros Hf. apply negb_eqb_false in Hf. subst rc.
      split; [|reflexivity]. apply list_insert_id. auto.
Qed.


(** Leaving a loop, and passing from one iteration to the next. *)
Lemma agree_acc st0 stc av ac e :
  st0 ~ stc -> acc_ok st0 stc av ac ->
  agree md opts st0 stc ac (Done av e st0) (Done ac e stc).
Proof. intros H [H1 H2]. agree_split; auto. Qed.

Lemma agree_weaken st0 stc stc1 ac ac1 ov oc :
  agree md opts st0 stc1 ac1 ov oc ->
  (ac1 = false -> stc1 = stc /\ ac = false) ->
  agree md opts st0 stc ac ov oc.
Proof.
  destruct ov as [cv ev stv| |], oc as [cc ec stc'| |]; simpl; auto.
  intros (He & Hv & Hr & H1 & H2 & H3) Hw.
  refine (conj He (conj Hv (conj Hr (conj H1 (conj _ _))))).
  - intros Hcv. destruct cc; [left; reflexivity|].
    destruct (H3 eq_refl) as [-> Hac]. destruct (Hw Hac) as [<- _].
    destruct (H2 Hcv) as [?|?]; [discriminate | right; assumption].
  - intros Hcc. destruct (H3 Hcc) as [-> Hac]. apply Hw, Hac.
Qed.

Lemma acc_ok_step st0 stc stc1 av ac cv1 cc1 :
  acc_ok st0 stc av ac ->
  (cc1 = true -> cv1 = true) ->
  (cv1 = true -> cc1 = true \/ stc <> st0) ->
  (cc1 = false -> stc1 = stc) ->
  acc_ok st0 stc1 (cv1 || av) (cc1 || ac)
  /\ (cc1 || ac = false -> stc1 = stc /\ ac = false).
Proof.
  intros [H1 H2] Ha Hb Hc. split; [split|].
  - destruct cc1; simpl; [intros _; rewrite Ha; reflexivity|].
    intros Hac. rewrite (H1 Hac). apply orb_true_r.
  - destruct cc1; simpl; [auto|]. rewrite (Hc eq_refl).
    intros [Hv|Hv]%orb_true_iff.
    + destruct (Hb Hv); [discriminate | auto].
    + apply H2, Hv.
  - intros [-> ->]%orb_false_iff. auto.
Qed.

Local Abbreviation entries_rel :=
  (Forall2 (fun a b : MapKey * string => a.1 = b.1 /\ R a.2 b.2)).

Lemma assoc_get_rel k es0 esc :
  entries_rel es0 esc -> option_Forall2 R (assoc_get k es0) (assoc_get k esc).
Proof.
  induction 1 as [|[k0 s0] [k1 s1] es0 esc [Hk Hs] _ IH]; simpl in *.
  - constructor.
  - subst k1. destruct (key_match k k0); [constructor; exact Hs | exact IH].
Qed.

Lemma assoc_set_rel k r s0 es0 esc :
  entries_rel es0 esc -> assoc_get k es0 = Some s0 -> R s0 r ->
  entries_rel es0 (assoc_set k r esc).
Proof.
  induction 1 as [|[k0 x0] [k1 x1] es0 esc [Hk Hs] Hrest IH]; simpl in *.
  - discriminate.
  - subst k1. destruct (key_match k k0).
    + intros [= ->] Hr. constructor; [split; auto | exact Hrest].
    + intros Hg Hr. constructor; [split; auto | auto].
Qed.

Lemma assoc_get_keys k es :
  Forall (fun kv : MapKey * string => is_nan kv.1 = false) es ->
  k ∈ (fst <$> es) -> is_Some (assoc_get k es).
Proof.
  induction 1 as [|[k0 x0] es Hk0 _ IH]; simpl.
  - intros H. inversion H.
  - intros H. destruct (key_match k k0) eqn:Hm; [eauto|].
    apply IH. inversion H; subst; [|assumption].
    simpl in Hk0. rewrite key_match_refl in Hm by exact Hk0. discriminate.
Qed.

Lemma convertMap_loop_sim fl l m st0 keys :
  flagRO fl = false ->
  forall av ac err stc es0 esc,
    st0 ~ stc ->
    st0 !! l = Some (CMap TString (Some m)) ->
    stc !! l = Some (CMap TString (Some m)) ->
    st0 !! m = Some (CMapObj es0) ->
    stc !! m = Some (CMapObj esc) ->
    Forall (fun k => is_Some (assoc_get k es0)) keys ->
    acc_ok st0 stc av ac ->
    agree md opts st0 stc ac
      (convertMap_loop fv (Val fl l) keys av err st0)
      (convertMap_loop fc (Val fl l) keys ac err stc).
Proof.
  intros Hro. induction keys as [|k rest IH];
    intros av ac err stc es0 esc Hrel Hl0 Hlc Hm0 Hmc Hkeys Hacc.
  { simpl. apply agree_acc; assumption. }
  apply Forall_cons in Hkeys as [[s0 Hs0] Hrest].
  assert (Hes : entries_rel es0 esc).
  { pose proof (rel_lookup _ _ m Hrel) as X. rewrite Hm0, Hmc in X.
    inversion X as [? ? Hc|]; subst. exact Hc. }
  pose proof (assoc_get_rel k _ _ Hes) as X. rewrite Hs0 in X.
  inversion X as [? sc Hsc Hx Hgc|]; subst. symmetry in Hgc. clear X.
  assert (Hlm : l <> m) by congruence.
  assert (Hstep : forall r, R s0 r ->
            let stc1 := <[m := CMapObj (assoc_set k r esc)]> stc in
            st0 ~ stc1 /\ stc1 !! l = Some (CMap TString (Some m))
            /\ stc1 !! m = Some (CMapObj (assoc_set k r esc))).
  { intros r Hr stc1. subst stc1. split; [|split].
    - rewrite <- (list_insert_id st0 m (CMapObj es0)) by assumption.
      apply Forall2_insert; [assumption|]. simpl.
      eapply assoc_set_rel; eauto.
    - rewrite list_lookup_insert_ne by congruence. assumption.
    - apply list_lookup_insert_eq. eapply lookup_lt_Some; eauto. }
  cbn [convertMap_loop]. unfold MapIndex, SetMapIndex, mapObj. cbn [cellOf].
  rewrite Hro, Hl0, Hlc, Hm0, Hmc, Hs0, Hgc. cbn [MapValue_String].
  unfold renderString, writeMarkdown. subst fv fc. cbn.
  destruct (decide (sc = s0)) as [->|Hne].
  - destruct (md opts s0) as [r [e|]] eqn:Hr.
    + apply agree_acc; assumption.
    + destruct (String.eqb_spec s0 r) as [<-|Hneq]; cbn [negb].
      * eapply IH; eauto.
      * destruct (Hstep r (rerendered_step _ _ Hr)) as (Hrel1 & Hl1 & Hm1).
        eapply agree_weaken;
          [eapply (IH true true); eauto; split; auto | intros; discriminate].
  - destruct (rerendered_dirty _ _ Hsc Hne) as [[s1 [Hs1 Hne1]] [rc Hrc]].
    rewrite Hs1, Hrc.
    destruct (String.eqb_spec s0 s1) as [?|_]; [congruence|]. cbn [negb].
    destruct (String.eqb_spec sc rc) as [<-|Hneq]; cbn [negb].
    + eapply IH; eauto. destruct Hacc as [H1 H2]. split; [auto|].
      intros _. right. intros ->. congruence.
    + destruct (Hstep rc (rerendered_again _ _ _ Hsc Hne Hrc)) as (Hrel1 & Hl1 & Hm1).
      eapply agree_weaken;
        [eapply (IH true true); eauto; split; auto | intros; discriminate].
Qed.

Lemma convertMap_sim st0 stc v :
  tidy_maps st0 ->
  st0 ~ stc ->
  agree md opts st0 stc false (convertMap fv v st0) (convertMap fc v stc).
Proof.
  intros [Hplain Hnan] Hrel. unfold convertMap.
  rewrite <- (rel_Kind_of _ _ v Hrel), <- (rel_Type_Elem_Kind _ _ v Hrel).
  destruct (negb (bool_decide (Kind_of v st0 = KMap))); [apply agree_same, Hrel|].
  destruct (bool_decide (Type_Elem_Kind v st0 = KString)) eqn:Ht;
    [|apply agree_same, Hrel].
  apply bool_decide_eq_true in Ht. cbn [negb].
  destruct (CanSet v) eqn:Hset; [|apply agree_same, Hrel]. cbn [negb].
  destruct v as [|fl l]; [apply agree_same, Hrel|].
  assert (Hro : flagRO fl = false).
  { unfold CanSet in Hset. apply andb_true_iff in Hset as [_ Hro].
    apply negb_true_iff in Hro. exact Hro. }
  unfold Type_Elem_Kind in Ht. unfold MapKeys, mapObj. cbn [cellOf] in *.
  pose proof (rel_lookup _ _ l Hrel) as X.
  inversion X as [c0 cc Hc Hc0 Hcc | Hc0 Hcc]; clear X;
    [|apply agree_same, Hrel].
  destruct c0 as [| | | |ek [m|]| | |], cc as [| | | |ek' [m'|]| | |];
    simpl in Hc; try discriminate; try (apply agree_same, Hrel).
  injection Hc as <- <-.
  rewrite <- Hc0 in Ht. symmetry in Hc0.
  pose proof (Hplain l ek (Some m) Hc0 Ht) as ->.
  pose proof (rel_lookup _ _ m Hrel) as X.
  inversion X as [d0 dc Hd Hd0 Hdc | Hd0 Hdc]; clear X;
    [|apply agree_same, Hrel].
  destruct d0 as [| | | | |es0| |], dc as [| | | | |esc| |];
    simpl in Hd; try discriminate; try (apply agree_same, Hrel).
  replace (fst <$> esc) with (fst <$> es0).
  - eapply convertMap_loop_sim; eauto.
    + apply Forall_forall. intros k Hk. apply assoc_get_keys; [|exact Hk].
      symmetry in Hd0. exact (Hnan m es0 Hd0).
    + split; [auto | discriminate].
  - clear -Hd. induction Hd as [|[k0 x0] [k1 x1] ? ? [Hk ?] _ IH];
      [reflexivity|].
    rewrite !fmap_cons. simpl in Hk. simpl. rewrite Hk, IH. reflexivity.
Qed.


Section LoopsSim.

Variable conv : fieldProcessor -> Value -> store -> outcome.
Hypothesis conv_sim :
  forall v st0 stc,
    tidy_maps st0 -> st0 ~ stc ->
    agree md opts st0 stc false (conv fv v st0) (conv fc v stc).

Lemma convertSlice_loop_sim st0 v idxs :
  tidy_maps st0 ->
  forall av ac err stc,
    st0 ~ stc -> acc_ok st0 stc av ac ->
    agree md opts st0 stc ac
      (convertSlice_loop conv fv v idxs av err st0)
      (convertSlice_loop conv fc v idxs ac err stc).
Proof.
  intros Htidy. induction idxs as [|i rest IH]; intros av ac err stc Hrel Hacc.
  { simpl. apply agree_acc; assumption. }
  cbn [convertSlice_loop]. rewrite <- (rel_Index _ _ v i Hrel).
  pose proof (conv_sim (Index v i st0) _ _ Htidy Hrel) as Hsub.
  destruct (conv fv (Index v i st0) st0) as [cv1 ev1 stv1| |],
    (conv fc (Index v i st0) stc) as [cc1 ec1 stc1| |];
    simpl in Hsub; try contradiction; [|exact I].
  destruct Hsub as (<- & -> & Hrel1 & H1 & H2 & H3).
  destruct (acc_ok_step _ _ stc1 _ _ cv1 cc1 Hacc H1 H2 (fun h => proj1 (H3 h)))
    as [Hacc1 Hw].
  eapply agree_weaken; [|exact Hw].
  destruct ev1 as [e|]; [apply agree_acc; assumption | apply IH; assumption].
Qed.

Lemma convertStruct_loop_sim st0 v idxs :
  tidy_maps st0 ->
  forall av ac err stc,
    st0 ~ stc -> acc_ok st0 stc av ac ->
    agree md opts st0 stc ac
      (convertStruct_loop conv fv v idxs av err st0)
      (convertStruct_loop conv fc v idxs ac err stc).
Proof.
  intros Htidy. induction idxs as [|i rest IH]; intros av ac err stc Hrel Hacc.
  { simpl. apply agree_acc; assumption. }
  cbn [convertStruct_loop].
  rewrite <- (rel_Field _ _ v i Hrel),
    <- (rel_isStruct _ _ (Field v i st0) Hrel),
    <- (rel_isStructFieldTagEnabled _ _ v i Hrel).
  replace (ConvertAllFields fc) with (ConvertAllFields fv) by reflexivity.
  destruct (negb (isStruct (Field v i st0) st0)
            && (negb (ConvertAllFields fv)
                && negb (isStructFieldTagEnabled v i st0))).
  { apply IH; assumption. }
  pose proof (conv_sim (Field v i st0) _ _ Htidy Hrel) as Hsub.
  destruct (conv fv (Field v i st0) st0) as [cv1 ev1 stv1| |],
    (conv fc (Field v i st0) stc) as [cc1 ec1 stc1| |];
    simpl in Hsub; try contradiction; [|exact I].
  destruct Hsub as (<- & -> & Hrel1 & H1 & H2 & H3).
  destruct (acc_ok_step _ _ stc1 _ _ cv1 cc1 Hacc H1 H2 (fun h => proj1 (H3 h)))
    as [Hacc1 Hw].
  eapply agree_weaken; [|exact Hw].
  destruct ev1 as [e|]; [apply agree_acc; assumption | apply IH; assumption].
Qed.

End LoopsSim.

Lemma acc_ok_start st0 stc : acc_ok st0 stc false false.
Proof. split; [auto | discriminate]. Qed.

Lemma convert_sim depth :
  forall v st0 stc,
    tidy_maps st0 -> st0 ~ stc ->
    agree md opts st0 stc false (convert depth fv v st0) (convert depth fc v stc).
Proof.
  induction depth as [|d IH]; intros v st0 stc Htidy Hrel; [exact I|].
  cbn [convert]. rewrite <- (rel_Kind_of _ _ v Hrel).
  destruct (Kind_of v st0) eqn:Hk; try (apply agree_same, Hrel).
  - unfold convertSlice_body. rewrite <- (rel_Kind_of _ _ v Hrel), Hk.
    apply agree_same, Hrel.
  - apply convertMap_sim; assumption.
  - rewrite <- (rel_Elem _ _ v Hrel). apply IH; assumption.
  - unfold convertSlice_body.
    rewrite <- (rel_Kind_of _ _ v Hrel), <- (rel_Len _ _ v Hrel), Hk.
    apply convertSlice_loop_sim; auto using acc_ok_start.
  - apply convertString_sim; assumption.
  - unfold convertStruct_body.
    rewrite <- (rel_Kind_of _ _ v Hrel), <- (rel_NumField _ _ v Hrel), Hk.
    apply convertStruct_loop_sim; auto using acc_ok_start.
Qed.

Lemma process_sim depth s st :
  tidy_maps st ->
  resultOf (process depth (WithMarkdown md) s allFields true opts st)
  = resultOf (process depth (WithMarkdown md) s allFields false opts st).
Proof.
  intros Htidy. unfold process.
  destruct (negb (IsValid (ValueOf s))); [reflexivity|].
  destruct (negb (bool_decide (TypeOf_Kind s st = KPtr))); [reflexivity|].
  destruct (negb (isValidSettable (Elem (ValueOf s) st))); [reflexivity|].
  cbn [makeFieldProcessor converter_ parseOptions].
  fold fv fc. unfold convertStruct, convertStruct_body.
  destruct (negb (bool_decide (Kind_of (Elem (ValueOf s) st) st = KStruct)));
    [reflexivity|].
  pose proof (convertStruct_loop_sim (convert depth) (convert_sim depth) st
                (Elem (ValueOf s) st)
                (seq 0 (NumField (Elem (ValueOf s) st) st)) Htidy
                false false None st (rel_store_refl st) (acc_ok_start st st))
    as Hsim.
  destruct (convertStruct_loop (convert depth) fv _ _ _ _ _) as [cv ev stv| |],
    (convertStruct_loop (convert depth) fc _ _ _ _ _) as [cc ec stc'| |];
    simpl in Hsim; try contradiction; [|reflexivity].
  destruct Hsim as (<- & _ & _ & H1 & H2 & _). simpl. f_equal.
  destruct cc; [rewrite (H1 eq_refl); reflexivity|].
  destruct cv; [|reflexivity].
  destruct (H2 eq_refl) as [?|?]; [discriminate | contradiction].
Qed.

End Simulation.

(** ** Slices, structs and maps of strings *)

Lemma hold_insert_other st ls ss e c :
  e ∉ ls -> hold st ls ss -> hold (<[e := c]> st) ls ss.
Proof.
  intros Hne H. induction H as [|l s ls ss Hl _ IH]; constructor.
  - rewrite list_lookup_insert_ne; [exact Hl|].
    intros ->. apply Hne. left.
  - apply IH. intros Hin. apply Hne. right. exact Hin.
Qed.

Lemma convert_settable_string d f e s st :
  st !! e = Some (CString s) ->
  ValidateOnly f = false ->
  convert (S d) f (Val addressable e) st
  = match renderString f s with
    | (_, Some x) => Done false (Some x) st
    | (out, None) => Done (negb (String.eqb s out)) None (<[e := CString out]> st)
    end.
Proof.
  intros He Hv. cbn [convert]. unfold Kind_of. cbn [cellOf]. rewrite He.
  cbn [kindOf]. unfold convertString, String_of, SetString. cbn [cellOf].
  rewrite He, Hv. simpl.
  destruct (renderString f s) as [out [x|]]; reflexivity.
Qed.

Lemma convertSlice_loop_strings d f fl l es_all :
  ValidateOnly f = false -> flagRO fl = false ->
  forall todo ss seen changed st,
    st !! l = Some (CSlice es_all) ->
    es_all = seen ++ todo ->
    NoDup todo -> hold st todo ss ->
    exists st',
      convertSlice_loop (convert (S d)) f (Val fl l)
        (seq (length seen) (length todo)) changed None st
      = Done ((render_until_error f ss).1.2 || changed) None st'
      /\ hold st' todo (render_until_error f ss).1.1
      /\ (forall l', l' ∉ todo -> st' !! l' = st !! l').
Proof.
  intros Hv Hro. induction todo as [|e suf IH];
    intros ss seen changed st Hl Hall Hnd Hhold.
  { inversion Hhold; subst. exists st. simpl. repeat split; auto. }
  inversion Hhold as [|? s ? ss' He Hrest]; subst.
  apply NoDup_cons in Hnd as [Hne Hnd].
  cbn [length seq convertSlice_loop render_until_error].
  assert (Hidx : Index (Val fl l) (length seen) st = Val addressable e).
  { simpl. rewrite Hl, list_lookup_middle by reflexivity.
    unfold ro. rewrite Hro. reflexivity. }
  rewrite Hidx, (convert_settable_string d f e s st He Hv).
  destruct (renderString f s) as [out [x|]] eqn:Hr.
  { exists st. simpl. repeat split; auto. }
  assert (Hle : l <> e) by congruence.
  destruct (IH ss' (seen ++ [e]) (negb (s =? out) || changed)
              (<[e := CString out]> st)) as (st' & Hloop & Hh & Hout).
  { rewrite list_lookup_insert_ne by congruence. exact Hl. }
  { rewrite <- app_assoc. reflexivity. }
  { exact Hnd. }
  { apply hold_insert_other; assumption. }
  rewrite length_app in Hloop. cbn [length] in Hloop.
  rewrite Nat.add_1_r in Hloop. rewrite Hloop.
  destruct (render_until_error f ss') as [[rest' c] e'] eqn:Hrec. cbn [fst snd] in *.
  exists st'. split; [|split].
  - f_equal. rewrite orb_assoc, (orb_comm c). reflexivity.
  - constructor; [|exact Hh]. rewrite (Hout e Hne).
    apply list_lookup_insert_eq. eapply lookup_lt_Some, He.
  - intros l' Hl'. apply not_elem_of_cons in Hl' as [Hl'e Hl's].
    rewrite (Hout l' Hl's). apply list_lookup_insert_ne. congruence.
Qed.

(** X8.  [convertSlice] on a slice whose elements are distinct string
    variables, the slice not read-only (it need not be addressable), when
    converting: the elements are rendered in order up to the first one the
    converter fails on; that one and the ones after it keep their text, no
    other variable changes, [changed] tells whether a rendered element
    differs from its source, and the error returned is nil even when the
    converter failed. *)
Theorem X8_slice_of_strings d f fl l es ss st :
  ValidateOnly f = false -> flagRO fl = false ->
  st !! l = Some (CSlice es) ->
  NoDup es -> hold st es ss ->
  exists st',
    convertSlice (S d) f (Val fl l) st
    = Done (render_until_error f ss).1.2 None st'
    /\ hold st' es (render_until_error f ss).1.1
    /\ (forall l', l' ∉ es -> st' !! l' = st !! l').
Proof.
  intros Hv Hro Hl Hnd Hh.
  destruct (convertSlice_loop_strings d f fl l es Hv Hro es ss [] false st
              Hl eq_refl Hnd Hh) as (st' & Hloop & Hh' & Hout).
  exists st'. split; [|split; assumption].
  unfold convertSlice, convertSlice_body.
  assert (Hk : Kind_of (Val fl l) st = KSlice)
    by (unfold Kind_of; cbn [cellOf]; rewrite Hl; reflexivity).
  assert (Hlen : Len (Val fl l) st = length es)
    by (unfold Len; cbn [cellOf]; rewrite Hl; reflexivity).
  rewrite Hk, Hlen, bool_decide_eq_true_2 by reflexivity. cbn [negb].
  cbn [length] in Hloop. rewrite Hloop, orb_false_r. reflexivity.
Qed.

Lemma convert_unsettable_string d f fl e s st :
  st !! e = Some (CString s) ->
  CanSet (Val fl e) = false ->
  convert (S d) f (Val fl e) st = Done false None st.
Proof.
  intros He Hc. cbn [convert]. unfold Kind_of. cbn [cellOf]. rewrite He.
  cbn [kindOf]. unfold convertString, isValidSettable. rewrite Hc.
  rewrite andb_false_r. reflexivity.
Qed.

Lemma zip_snd_hold (fs : list (StructField * loc)) (ss : list string) st :
  hold st fs.*2 ss -> (zip fs.*1 ss).*2 = ss.
Proof.
  revert ss. induction fs as [|[sf e] fs IH]; intros ss H;
    inversion H; subst; [reflexivity|].
  cbn. f_equal. apply IH. assumption.
Qed.

Lemma convertStruct_loop_strings d f t fs_all :
  ValidateOnly f = false ->
  forall (todo : list (StructField * loc)) ss seen changed st,
    st !! t = Some (CStruct fs_all) ->
    fs_all = seen ++ todo ->
    NoDup todo.*2 -> hold st todo.*2 ss ->
    exists st',
      convertStruct_loop (convert (S d)) f (Val addressable t)
        (seq (length seen) (length todo)) changed None st
      = Done ((render_fields f (zip todo.*1 ss)).1.2 || changed)
          (render_fields f (zip todo.*1 ss)).2 st'
      /\ hold st' todo.*2 (render_fields f (zip todo.*1 ss)).1.1
      /\ (forall l', l' ∉ todo.*2 -> st' !! l' = st !! l').
Proof.
  intros Hv. induction todo as [|[sf e] todo IH];
    intros ss seen changed st Ht Hall Hnd Hhold.
  { inversion Hhold; subst. exists st. simpl. repeat split; auto. }
  rewrite fmap_cons in Hnd, Hhold. cbn [snd] in Hnd, Hhold.
  inversion Hhold as [|? s ? ss' He Hrest]; subst.
  apply NoDup_cons in Hnd as [Hne Hnd].
  assert (Hte : t <> e) by congruence.
  rewrite !fmap_cons. cbn [fst snd zip zip_with length seq
    convertStruct_loop render_fields].
  assert (Hfld : Field (Val addressable t) (length seen) st
                 = Val {| flagAddr := true;
                          flagStickyRO := negb (Exported sf) && negb (Anonymous sf);
                          flagEmbedRO := negb (Exported sf) && Anonymous sf |} e).
  { simpl. rewrite Ht, list_lookup_middle by reflexivity. reflexivity. }
  assert (Hs : isStruct (Field (Val addressable t) (length seen) st) st = false).
  { rewrite Hfld. unfold isStruct, Kind_of. cbn [IsValid negb cellOf].
    rewrite He. reflexivity. }
  assert (Htag : isStructFieldTagEnabled (Val addressable t) (length seen) st
                 = isMarkdownTagEnabled (Tag sf)).
  { unfold isStructFieldTagEnabled, Kind_of, Type_Field. cbn [cellOf].
    rewrite Ht, list_lookup_middle by reflexivity. reflexivity. }
  rewrite Hs, Htag. cbn [negb andb].
  (* what the induction hypothesis gives after this field, in store st1 *)
  assert (Hnext : forall changed1 st1,
            st1 !! t = Some (CStruct (seen ++ (sf, e) :: todo)) ->
            hold st1 todo.*2 ss' ->
            exists st',
              convertStruct_loop (convert (S d)) f (Val addressable t)
                (seq (S (length seen)) (length todo)) changed1 None st1
              = Done ((render_fields f (zip todo.*1 ss')).1.2 || changed1)
                  (render_fields f (zip todo.*1 ss')).2 st'
              /\ hold st' todo.*2 (render_fields f (zip todo.*1 ss')).1.1
              /\ (forall l', l' ∉ todo.*2 -> st' !! l' = st1 !! l')).
  { intros changed1 st1 Ht1 Hh1.
    destruct (IH ss' (seen ++ [(sf, e)]) changed1 st1) as (st' & Hloop & Hh & Hout);
      auto.
    { rewrite <- app_assoc. reflexivity. }
    rewrite length_app in Hloop. cbn [length] in Hloop.
    rewrite Nat.add_1_r in Hloop. eauto. }
  (* the field is left as it is *)
  assert (Hkeep : forall changed1,
            changed1 = changed ->
            exists st',
              convertStruct_loop (convert (S d)) f (Val addressable t)
                (seq (S (length seen)) (length todo)) changed1 None st
              = Done ((let '(rest', c, e0) := render_fields f (zip todo.*1 ss') in
                       (s :: rest', c, e0)).1.2 || changed)
                  (let '(rest', c, e0) := render_fields f (zip todo.*1 ss') in
                   (s :: rest', c, e0)).2 st'
              /\ hold st' (e :: todo.*2)
                   (let '(rest', c, e0) := render_fields f (zip todo.*1 ss') in
                    (s :: rest', c, e0)).1.1
              /\ (forall l', l' ∉ e :: todo.*2 -> st' !! l' = st !! l')).
  { intros changed1 ->.
    destruct (Hnext changed st Ht Hrest) as (st' & Hloop & Hh & Hout).
    destruct (render_fields f (zip todo.*1 ss')) as [[rest' c] e'].
    cbn [fst snd] in *. exists st'. split; [exact Hloop|]. split.
    - constructor; [|exact Hh]. rewrite (Hout e Hne). exact He.
    - intros l' [_ Hl']%not_elem_of_cons. apply Hout, Hl'. }
  destruct (negb (ConvertAllFields f || isMarkdownTagEnabled (Tag sf))) eqn:Hgate.
  { apply negb_true_iff in Hgate.
    replace (negb (ConvertAllFields f) && negb (isMarkdownTagEnabled (Tag sf)))
      with true by (rewrite <- negb_orb, Hgate; reflexivity).
    rewrite Hgate. cbn [andb]. apply Hkeep. reflexivity. }
  apply negb_false_iff in Hgate.
  replace (negb (ConvertAllFields f) && negb (isMarkdownTagEnabled (Tag sf)))
    with false by (rewrite <- negb_orb, Hgate; reflexivity).
  rewrite Hgate, Hfld. cbn [andb].
  destruct (Exported sf) eqn:Hexp; cbn [negb andb].
  2:{ rewrite (convert_unsettable_string d f _ e s st He);
        [|simpl; unfold flagRO; simpl; destruct (Anonymous sf); reflexivity].
      cbn [orb]. apply Hkeep. reflexivity. }
  change {| flagAddr := true; flagStickyRO := false; flagEmbedRO := false |}
    with addressable.
  rewrite (convert_settable_string d f e s st He Hv).
  destruct (renderString f s) as [out [x|]] eqn:Hr.
  { exists st. cbn [fst snd orb]. split; [reflexivity|]. split; [|auto].
    constructor; [exact He|]. rewrite (zip_snd_hold todo ss' st Hrest). exact Hrest. }
  destruct (Hnext (negb (s =? out) || changed) (<[e := CString out]> st))
    as (st' & Hloop & Hh & Hout).
  { rewrite list_lookup_insert_ne by congruence. exact Ht. }
  { apply hold_insert_other; assumption. }
  rewrite Hloop.
  destruct (render_fields f (zip todo.*1 ss')) as [[rest' c] e'].
  cbn [fst snd] in *. exists st'. split; [|split].
  - f_equal. rewrite orb_assoc, (orb_comm c). reflexivity.
  - constructor; [|exact Hh]. rewrite (Hout e Hne).
    apply list_lookup_insert_eq. eapply lookup_lt_Some, He.
  - intros l' [Hl'e Hl's]%not_elem_of_cons.
    rewrite (Hout l' Hl's). apply list_lookup_insert_ne. congruence.
Qed.

Lemma process_struct_of_strings d c l t fs ss allFields opts st :
  let f := {| ConvertAllFields := allFields; ValidateOnly := false;
              converter_ := c; parseOptions := opts |} in
  st !! l = Some (CPtr (Some t)) ->
  st !! t = Some (CStruct fs) ->
  NoDup fs.*2 -> hold st fs.*2 ss ->
  exists st',
    process (S d) c (Some l) allFields false opts st
    = Done (render_fields f (zip fs.*1 ss)).1.2
        (render_fields f (zip fs.*1 ss)).2 st'
    /\ hold st' fs.*2 (render_fields f (zip fs.*1 ss)).1.1
    /\ (forall l', l' ∉ fs.*2 -> st' !! l' = st !! l').
Proof.
  intros f Hl Ht Hnd Hh.
  destruct (convertStruct_loop_strings d f t fs eq_refl fs ss [] false st
              Ht eq_refl Hnd Hh) as (st' & Hloop & Hh' & Hout).
  exists st'. split; [|split; assumption].
  rewrite (process_eq_convertStruct _ _ _ _ _ _ _ _ Hl). fold f.
  unfold convertStruct, convertStruct_body.
  assert (Hk : Kind_of (Val addressable t) st = KStruct)
    by (unfold Kind_of; cbn [cellOf]; rewrite Ht; reflexivity).
  assert (Hn : NumField (Val addressable t) st = length fs)
    by (unfold NumField; cbn [cellOf]; rewrite Ht; reflexivity).
  rewrite Hk, Hn, bool_decide_eq_true_2 by reflexivity. cbn [negb].
  cbn [length] in Hloop. rewrite Hloop, orb_false_r. reflexivity.
Qed.

Lemma key_match_ne k k' : k <> k' -> key_match k k' = false.
Proof.
  intros Hne. unfold key_match. rewrite bool_decide_eq_false_2 by exact Hne.
  apply andb_false_r.
Qed.

Lemma assoc_get_middle k s (seen todo : list (MapKey * string)) :
  is_nan k = false -> k ∉ seen.*1 ->
  assoc_get k (seen ++ (k, s) :: todo) = Some s.
Proof.
  intros Hnan. induction seen as [|[k0 s0] seen IH]; cbn [app assoc_get].
  - intros _. rewrite key_match_refl by exact Hnan. reflexivity.
  - rewrite fmap_cons. intros [Hne Hn]%not_elem_of_cons. cbn [fst] in Hne.
    rewrite key_match_ne by exact Hne. apply IH, Hn.
Qed.

Lemma assoc_set_middle k s out (seen todo : list (MapKey * string)) :
  is_nan k = false -> k ∉ seen.*1 ->
  assoc_set k out (seen ++ (k, s) :: todo) = seen ++ (k, out) :: todo.
Proof.
  intros Hnan. induction seen as [|[k0 s0] seen IH]; cbn [app assoc_set].
  - intros _. rewrite key_match_refl by exact Hnan. reflexivity.
  - rewrite fmap_cons. intros [Hne Hn]%not_elem_of_cons. cbn [fst] in Hne.
    rewrite key_match_ne by exact Hne. rewrite (IH Hn). reflexivity.
Qed.

Lemma convertMap_loop_entries f fl l m :
  ValidateOnly f = false -> flagRO fl = false ->
  forall (todo seen : list (MapKey * string)) changed st,
    st !! l = Some (CMap TString (Some m)) ->
    st !! m = Some (CMapObj (seen ++ todo)) ->
    NoDup (seen ++ todo).*1 ->
    Forall (fun kv : MapKey * string => is_nan kv.1 = false) todo ->
    convertMap_loop f (Val fl l) todo.*1 changed None st
    = Done ((render_entries f todo).2 || changed) None
        (<[m := CMapObj (seen ++ (render_entries f todo).1)]> st).
Proof.
  intros Hv Hro. induction todo as [|[k s] todo IH];
    intros seen changed st Hl Hm Hnd Hnan.
  { simpl. rewrite list_insert_id by exact Hm. reflexivity. }
  apply Forall_cons in Hnan as [Hnk Hnan]. cbn [fst] in Hnk.
  assert (Hk : k ∉ seen.*1).
  { rewrite fmap_app, fmap_cons in Hnd. apply NoDup_app in Hnd as (_ & Hd & _).
    intros Hin. apply (Hd k Hin). left. }
  rewrite fmap_cons. cbn [fst convertMap_loop render_entries].
  unfold MapIndex, SetMapIndex, mapObj. cbn [cellOf].
  rewrite Hro, Hl, Hm, (assoc_get_middle k s seen todo Hnk Hk).
  cbn [MapValue_String]. rewrite Hv.
  assert (Happ : forall x, seen ++ (k, x) :: todo = (seen ++ [(k, x)]) ++ todo)
    by (intros; rewrite <- app_assoc; reflexivity).
  destruct (renderString f s) as [out [x|]] eqn:Hr.
  { cbn [fst snd orb]. rewrite list_insert_id by exact Hm. reflexivity. }
  destruct (String.eqb_spec s out) as [<-|Hne]; cbn [negb].
  - rewrite (IH (seen ++ [(k, s)]) changed st Hl); [| | |]; rewrite <- ?Happ; auto.
    destruct (render_entries f todo) as [rest' c]. cbn [fst snd orb].
    rewrite <- app_assoc. reflexivity.
  - assert (Hlm : l <> m) by congruence.
    rewrite (assoc_set_middle k s out seen todo Hnk Hk).
    rewrite (IH (seen ++ [(k, out)]) true
               (<[m := CMapObj (seen ++ (k, out) :: todo)]> st)).
    + destruct (render_entries f todo) as [rest' c]. cbn [fst snd orb].
      rewrite list_insert_insert_eq, <- app_assoc, orb_true_r. reflexivity.
    + rewrite list_lookup_insert_ne by congruence. exact Hl.
    + rewrite <- Happ. apply list_lookup_insert_eq. eapply lookup_lt_Some, Hm.
    + rewrite <- Happ. rewrite fmap_app, fmap_cons in Hnd |- *. exact Hnd.
    + exact Hnan.
Qed.

(** X10.  [convertMap] on a settable map whose element type is [string]
    itself, with distinct keys none of which is a NaN, when converting; the
    entries are listed in the order in which this traversal visits the
    keys.  The values are rendered in that order up to the first one the
    converter fails on; the keys are kept, only the map object changes,
    [changed] tells whether a rendered value differs from its source, and
    the error returned is nil. *)
Theorem X10_map_of_strings f fl l m es st :
  ValidateOnly f = false ->
  CanSet (Val fl l) = true ->
  st !! l = Some (CMap TString (Some m)) ->
  st !! m = Some (CMapObj es) ->
  NoDup es.*1 ->
  Forall (fun kv : MapKey * string => is_nan kv.1 = false) es ->
  convertMap f (Val fl l) st
  = Done (render_entries f es).2 None
      (<[m := CMapObj (render_entries f es).1]> st).
Proof.
  intros Hv Hc Hl Hm Hnd Hnan. unfold convertMap.
  assert (Hk : Kind_of (Val fl l) st = KMap)
    by (unfold Kind_of; cbn [cellOf]; rewrite Hl; reflexivity).
  assert (He : Type_Elem_Kind (Val fl l) st = KString)
    by (unfold Type_Elem_Kind; cbn [cellOf]; rewrite Hl; reflexivity).
  assert (Hkeys : MapKeys (Val fl l) st = es.*1)
    by (unfold MapKeys, mapObj; cbn [cellOf]; rewrite Hl, Hm; reflexivity).
  assert (Hro : flagRO fl = false).
  { unfold CanSet in Hc. apply andb_true_iff in Hc as [_ Hc].
    apply negb_true_iff in Hc. exact Hc. }
  rewrite Hk, He, Hc, Hkeys, !bool_decide_eq_true_2 by reflexivity.
  cbn [negb].
  rewrite (convertMap_loop_entries f fl l m Hv Hro es [] false st Hl Hm Hnd Hnan).
  rewrite orb_false_r. reflexivity.
Qed.

Lemma render_fields_again f (flds : list (StructField * string)) ss' c :
  (forall s out, renderString f s = (out, None) -> renderString f out = (out, None)) ->
  render_fields f flds = (ss', c, None) ->
  render_fields f (zip flds.*1 ss') = (ss', false, None).
Proof.
  intros Hid. revert ss' c. induction flds as [|[sf s] flds IH]; intros ss' c.
  { simpl. intros [= <- _]. reflexivity. }
  rewrite fmap_cons. cbn [fst render_fields].
  destruct ((ConvertAllFields f || isMarkdownTagEnabled (Tag sf)) && Exported sf)
    eqn:Hg.
  - destruct (renderString f s) as [out [x|]] eqn:Hr; [discriminate|].
    destruct (render_fields f flds) as [[rest' c'] e'] eqn:Hrec.
    intros [= <- _ ->]. cbn [zip zip_with render_fields]. rewrite Hg.
    rewrite (Hid _ _ Hr), (IH rest' c' eq_refl), String.eqb_refl. reflexivity.
  - destruct (render_fields f flds) as [[rest' c'] e'] eqn:Hrec.
    intros [= <- _ ->]. cbn [zip zip_with render_fields]. rewrite Hg.
    rewrite (IH rest' c' eq_refl). reflexivity.
Qed.

Lemma process_struct_of_strings_twice d c l t fs ss allFields opts st ch st' :
  st !! l = Some (CPtr (Some t)) ->
  st !! t = Some (CStruct fs) ->
  NoDup fs.*2 -> hold st fs.*2 ss ->
  (forall s out, markdown c opts s = (out, None) -> markdown c opts out = (out, None)) ->
  process (S d) c (Some l) allFields false opts st = Done ch None st' ->
  process (S d) c (Some l) allFields false opts st' = Done false None st'.
Proof.
  intros Hl Ht Hnd Hh Hid Hrun.
  set (f := {| ConvertAllFields := allFields; ValidateOnly := false;
               converter_ := c; parseOptions := opts |}).
  destruct (process_struct_of_strings d c l t fs ss allFields opts st Hl Ht Hnd Hh)
    as (st1 & Hrun1 & Hh1 & Hout1). fold f in Hrun1, Hh1.
  rewrite Hrun in Hrun1. injection Hrun1 as Hc He <-.
  assert (Hl' : st' !! l = Some (CPtr (Some t))).
  { rewrite Hout1; [exact Hl|]. intros Hin.
    apply list_elem_of_lookup in Hin as [i Hi].
    destruct (Forall2_lookup_l _ _ _ _ _ Hh Hi) as (s & _ & Hs). congruence. }
  assert (Ht' : st' !! t = Some (CStruct fs)).
  { rewrite Hout1; [exact Ht|]. intros Hin.
    apply list_elem_of_lookup in Hin as [i Hi].
    destruct (Forall2_lookup_l _ _ _ _ _ Hh Hi) as (s & _ & Hs). congruence. }
  destruct (process_struct_of_strings d c l t fs _ allFields opts st'
              Hl' Ht' Hnd Hh1) as (st2 & Hrun2 & _ & _). fold f in Hrun2.
  destruct (render_fields f (zip fs.*1 ss)) as [[ss1 c1] e1] eqn:Hrf.
  cbn [fst snd] in *. subst e1.
  assert (Hflds : (zip fs.*1 ss).*1 = fs.*1).
  { clear -Hh. revert ss Hh. induction fs as [|[sf e] fs IH]; intros ss H;
      inversion H; subst; [reflexivity|]. cbn. f_equal. apply IH. assumption. }
  pose proof (render_fields_again f _ _ _ Hid Hrf) as Hagain.
  rewrite Hflds in Hagain. rewrite Hagain in Hrun2. cbn [fst snd] in Hrun2.
  rewrite Hrun2. f_equal.
  apply process_facts in Hrun2 as (Hsame & _). auto.
Qed.

Lemma isStruct_iff v st :
  isStruct v st = true
  <-> Kind_of v st = KStruct
      \/ (Kind_of v st = KPtr /\ Kind_of (Elem v st) st = KStruct).
Proof.
  split; [|apply isStruct_true].
  unfold isStruct. destruct v as [|fl l]; [discriminate|]. cbn [IsValid negb].
  destruct (bool_decide (Kind_of (Val fl l) st = KStruct)) eqn:H1.
  { apply bool_decide_eq_true in H1. auto. }
  destruct (bool_decide (Kind_of (Val fl l) st = KPtr)) eqn:H2; [|discriminate].
  apply bool_decide_eq_true in H2.
  destruct (Elem (Val fl l) st) as [|fl' t]; [discriminate|]. cbn [IsValid negb].
  destruct (bool_decide (Kind_of (Val fl' t) st = KStruct)) eqn:H3;
    [|discriminate].
  apply bool_decide_eq_true in H3. auto.
Qed.

(** ** Statements *)

(** X1.  An entry point that returns [changed = false] has left every
    variable as it was, whether or not it returns an error, in both
    modes. *)
Theorem X1_not_changed_means_untouched
    depth c s allFields validateOnly opts st e st' :
  process depth c s allFields validateOnly opts st = Done false e st' ->
  st' = st.
Proof. intros H. apply process_facts in H as (H & _). auto. Qed.

Lemma X1_not_changed_means_untouched_witness :
  storeOf (Converter.ConvertAllFields 3 (WithMarkdown Samples.picky) (Some 0) []
             Samples.with_slice)
  = Samples.with_slice.
Proof.
  exact (X1_not_changed_means_untouched
           3 (WithMarkdown Samples.picky) (Some 0) true false []
           Samples.with_slice None Samples.with_slice eq_refl).
Defined.

(** X2.  An entry point returns [changed = true] only if the converter,
    called with the options of the call, turns some source into a different
    text without error. *)
Theorem X2_changed_means_converter_alters
    depth c s allFields validateOnly opts st e st' :
  process depth c s allFields validateOnly opts st = Done true e st' ->
  exists src out, markdown c opts src = (out, None) /\ out <> src.
Proof. intros H. apply process_facts in H as (_ & H & _). exact (H eq_refl). Qed.

Lemma X2_changed_means_converter_alters_witness :
  exists src out, Samples.paragraph [] src = (out, None) /\ out <> src.
Proof.
  exact (X2_changed_means_converter_alters
           3 (WithMarkdown Samples.paragraph) (Some 0) false false []
           Samples.with_slice None
           (<[4 := CString "<p>two</p>"]>
              (<[3 := CString "<p>one</p>"]> Samples.with_slice))
           eq_refl).
Defined.

(** X3.  An error returned by an entry point is either an error the
    converter returned for some source, handed on as it is, or an error
    that wraps [ErrInvalidType]. *)
Theorem X3_error_provenance
    depth c s allFields validateOnly opts st changed err st' :
  process depth c s allFields validateOnly opts st = Done changed (Some err) st' ->
  (exists src out, markdown c opts src = (out, Some err))
  \/ errors.Is err ErrInvalidType = true.
Proof.
  intros H. apply process_facts in H as (_ & _ & H). exact (H err eq_refl).
Qed.

Lemma X3_error_provenance_witness :
  (exists src out, Samples.picky [] src = (out, Some Samples.BOOM))
  \/ errors.Is Samples.BOOM ErrInvalidType = true.
Proof.
  exact (X3_error_provenance
           3 (WithMarkdown Samples.picky) (Some 0) false false []
           Samples.two_fields true Samples.BOOM
           (<[2 := CString "y"]> Samples.two_fields) eq_refl).
Defined.

(** X4.  The panics of [reflect].  [SetString] never panics: [convert]
    hands [convertString] Values of kind string only, and [convertString]
    tests settability before it writes.  [SetMapIndex] panics on a map
    whose element type is a named string type, which the guard of
    [convertMap] lets through.  So no entry point panics when it validates
    only, nor when every map of the data whose element kind is [String] has
    the element type [string] itself. *)
Theorem X4_entry_points_never_panic depth c s allFields validateOnly opts st :
  validateOnly = true \/ string_maps_plain st ->
  resultOf (process depth c s allFields validateOnly opts st) <> Panicked.
Proof.
  intros Hfree.
  pose proof (process_no_panic depth c s allFields validateOnly opts st Hfree)
    as H.
  destruct (process depth c s allFields validateOnly opts st); simpl in *;
    discriminate.
Qed.

Lemma X4_entry_points_never_panic_witness :
  string_maps_plain Samples.with_map
  /\ resultOf (process 3 (WithMarkdown Samples.paragraph) (Some 0) false false []
                 Samples.with_map) <> Panicked.
Proof.
  assert (Hplain : string_maps_plain Samples.with_map).
  { intros l t obj Hl Hk.
    destruct l as [|[|[|[|l]]]]; simpl in Hl; try discriminate Hl.
    injection Hl as <- _. reflexivity. }
  split; [exact Hplain|].
  exact (X4_entry_points_never_panic
           3 (WithMarkdown Samples.paragraph) (Some 0) false false []
           Samples.with_map (or_intror Hplain)).
Defined.

Lemma sticky_unexported_Field v i sf st :
  Type_Field v i st = Some sf ->
  Exported sf = false -> Anonymous sf = false ->
  sticky (Field v i st).
Proof.
  destruct v as [|fl l]; [discriminate|]. unfold Type_Field. simpl.
  destruct (st !! l) as [[| | | | | |fs|]|]; try discriminate.
  destruct (fs !! i) as [[sf' t]|]; [|discriminate].
  simpl. intros [= ->] -> ->. simpl. apply orb_true_r.
Qed.

(** X5.  Nothing is converted below an unexported field that is not
    embedded: [convert] on such a field, whatever it holds (a string, a
    struct, a slice, a map, pointers to these), writes nothing and reports
    no change, whatever the policy and the tags below it. *)
Theorem X5_unexported_field_untouched depth f v i sf st :
  Type_Field v i st = Some sf ->
  Exported sf = false -> Anonymous sf = false ->
  quiet st (convert depth f (Field v i st) st).
Proof.
  intros Hf He Ha. apply convert_quiet.
  exact (sticky_unexported_Field v i sf st Hf He Ha).
Qed.

Lemma X5_unexported_field_untouched_witness :
  quiet Samples.hidden_inner
    (convert 4
       {| ConvertAllFields := true; ValidateOnly := false;
          converter_ := WithMarkdown Samples.picky; parseOptions := [] |}
       (Field (Val addressable 1) 0 Samples.hidden_inner)
       Samples.hidden_inner).
Proof.
  exact (X5_unexported_field_untouched 4
           {| ConvertAllFields := true; ValidateOnly := false;
              converter_ := WithMarkdown Samples.picky; parseOptions := [] |}
           (Val addressable 1) 0 (Samples.unexported "inner" "on")
           Samples.hidden_inner eq_refl eq_refl eq_refl).
Defined.

(** X6.  When a validating call returns [changed = false], the converting
    call with the same policy, converter and options, started in the same
    store, returns the same [changed = false] and the same error, and
    leaves the store as it was; this when every traversal of a map in the
    two calls visits its keys in one and the same order (the order is part
    of the store here; Go draws it anew at every traversal). *)
Theorem X6_validation_without_change_is_exact
    depth c s allFields opts st e st' :
  process depth c s allFields true opts st = Done false e st' ->
  process depth c s allFields false opts st = Done false e st.
Proof. apply process_dry. Qed.

Lemma X6_validation_without_change_is_exact_witness :
  Converter.ConvertFields 3 (WithMarkdown Samples.exploding) (Some 0) []
    Samples.two_fields
  = Done false (Some Samples.BOOM) Samples.two_fields.
Proof.
  exact (X6_validation_without_change_is_exact
           3 (WithMarkdown Samples.exploding) (Some 0) false []
           Samples.two_fields (Some Samples.BOOM) Samples.two_fields eq_refl).
Defined.

(** X7.  Whatever an entry point does, it changes texts only.  The store it
    leaves has the same variables; a variable that is not a string or a map
    object (a pointer, a slice header, a map header, a struct, an array, a
    number) is as it was; a string is as it was or is a text the converter
    produced without error.  A map object keeps its entries under their
    keys, each value as it was or a text the converter produced without
    error; entries may have been added after them, each under a NaN key and
    holding a text the converter produced without error, and none is added
    to a map without a NaN key. *)
Theorem X7_only_texts_change depth c s allFields validateOnly opts st :
  let f := {| ConvertAllFields := allFields; ValidateOnly := validateOnly;
              converter_ := c; parseOptions := opts |} in
  let st' := storeOf (process depth c s allFields validateOnly opts st) in
  length st' = length st
  /\ (forall l c, st !! l = Some c ->
        match c with
        | CString s =>
            exists s', st' !! l = Some (CString s')
              /\ (s' = s \/ exists x, renderString f x = (s', None))
        | CMapObj es =>
            exists kept added,
              st' !! l = Some (CMapObj (kept ++ added))
              /\ kept.*1 = es.*1
              /\ Forall2 (fun a b : MapKey * string =>
                            b.2 = a.2 \/ exists x, renderString f x = (b.2, None))
                   es kept
              /\ Forall (fun kv : MapKey * string =>
                           is_nan kv.1 = true
                           /\ exists x, renderString f x = (kv.2, None)) added
              /\ (Forall (fun kv : MapKey * string => is_nan kv.1 = false) es ->
                  added = [])
        | _ => st' !! l = Some c
        end).
Proof.
  intros f st'. apply store_evolves_reading. apply process_evolves.
Qed.

Lemma X7_only_texts_change_witness :
  exists kept added,
    storeOf (Converter.ConvertFields 3 (WithMarkdown Samples.paragraph) (Some 0) []
               Samples.with_nan_map) !! 3
    = Some (CMapObj (kept ++ added))
    /\ kept.*1 = [NaNKey 0]
    /\ Forall2 (fun a b : MapKey * string =>
                  b.2 = a.2
                  \/ exists x,
                       renderString
                         {| ConvertAllFields := false; ValidateOnly := false;
                            converter_ := WithMarkdown Samples.paragraph;
                            parseOptions := [] |} x = (b.2, None))
         [(NaNKey 0, "x")] kept
    /\ Forall (fun kv : MapKey * string =>
                 is_nan kv.1 = true
                 /\ exists x,
                      renderString
                        {| ConvertAllFields := false; ValidateOnly := false;
                           converter_ := WithMarkdown Samples.paragraph;
                           parseOptions := [] |} x = (kv.2, None)) added
    /\ (Forall (fun kv : MapKey * string => is_nan kv.1 = false)
          [(NaNKey 0, "x")] -> added = []).
Proof.
  destruct (X7_only_texts_change 3 (WithMarkdown Samples.paragraph) (Some 0)
              false false [] Samples.with_nan_map) as [_ H].
  exact (H 3 _ eq_refl).
Defined.

Lemma X8_slice_of_strings_witness :
  exists st',
    convertSlice 1
      (makeFieldProcessor (WithMarkdown Samples.strict) [])
      (ValueOf (Some 2)) Samples.slice_with_bad
    = Done true None st'
    /\ hold st' [3; 4; 5] ["<p>one</p>"; "bad"; "three"]
    /\ (forall l', l' ∉ [3; 4; 5] -> st' !! l' = Samples.slice_with_bad !! l').
Proof.
  refine (X8_slice_of_strings 0
            (makeFieldProcessor (WithMarkdown Samples.strict) [])
            {| flagAddr := false; flagStickyRO := false; flagEmbedRO := false |}
            2 [3; 4; 5] ["one"; "bad"; "three"] Samples.slice_with_bad
            eq_refl eq_refl eq_refl _ _).
  - refine (bool_decide_unpack _ _). vm_compute. exact I.
  - repeat constructor.
Defined.

(** X9.  An entry point, when converting, on a pointer to a struct whose
    fields are distinct string variables: in declaration order, a field is
    rendered when it is exported and the policy or its tag makes it
    eligible, every other field keeps its text; the first failure stops the
    call, which returns that error and leaves the failing field and the
    fields after it as they were; no other variable changes, and [changed]
    tells whether a rendered field differs from its source. *)
Theorem X9_struct_of_strings d c l t fs ss allFields opts st :
  let f := {| ConvertAllFields := allFields; ValidateOnly := false;
              converter_ := c; parseOptions := opts |} in
  st !! l = Some (CPtr (Some t)) ->
  st !! t = Some (CStruct fs) ->
  NoDup fs.*2 -> hold st fs.*2 ss ->
  exists st',
    process (S d) c (Some l) allFields false opts st
    = Done (render_fields f (zip fs.*1 ss)).1.2
        (render_fields f (zip fs.*1 ss)).2 st'
    /\ hold st' fs.*2 (render_fields f (zip fs.*1 ss)).1.1
    /\ (forall l', l' ∉ fs.*2 -> st' !! l' = st !! l').
Proof. apply process_struct_of_strings. Qed.

Lemma X9_struct_of_strings_witness :
  exists st',
    Converter.ConvertFields 1 (WithMarkdown Samples.picky) (Some 0) []
      Samples.four_strings
    = Done true None st'
    /\ hold st' [2; 3; 4; 5] ["y"; "x"; "x"; "y"]
    /\ (forall l', l' ∉ [2; 3; 4; 5] -> st' !! l' = Samples.four_strings !! l').
Proof.
  refine (X9_struct_of_strings 0 (WithMarkdown Samples.picky) 0 1
            [(Samples.tagged "A" "yes", 2); (Samples.untagged "B", 3);
             (Samples.unexported "c" "on", 4); (Samples.tagged "D" "on", 5)]
            ["x"; "x"; "x"; "x"] false [] Samples.four_strings
            eq_refl eq_refl _ _).
  - refine (bool_decide_unpack _ _). vm_compute. exact I.
  - repeat constructor.
Defined.

Lemma X10_map_of_strings_witness :
  convertMap (makeFieldProcessor (WithMarkdown Samples.strict) [])
    (Val addressable 2) Samples.map_with_bad
  = Done true None
      (<[3 := CMapObj [(IntKey 200, "<p>OK</p>"); (IntKey 404, "bad");
                       (IntKey 500, "Error")]]> Samples.map_with_bad).
Proof.
  refine (X10_map_of_strings
            (makeFieldProcessor (WithMarkdown Samples.strict) [])
            addressable 2 3
            [(IntKey 200, "OK"); (IntKey 404, "bad"); (IntKey 500, "Error")]
            Samples.map_with_bad eq_refl eq_refl eq_refl eq_refl _ _).
  - refine (bool_decide_unpack _ _). vm_compute. exact I.
  - repeat constructor.
Defined.

(** X11.  [isStruct] looks through one pointer and no further.  It holds
    exactly of a struct and of a non-nil pointer to a struct; so a field
    that is a pointer to a pointer (to a struct, say) is not exempt from
    the tag gate: untagged, under the tagged-only policy, the loop of
    [convertStruct] passes over it. *)
Theorem X11_isStruct_one_pointer :
  (forall v st,
     isStruct v st = true
     <-> Kind_of v st = KStruct
         \/ (Kind_of v st = KPtr /\ Kind_of (Elem v st) st = KStruct))
  /\ (forall conv f v i rest changed err st,
        ConvertAllFields f = false ->
        isStructFieldTagEnabled v i st = false ->
        Kind_of (Field v i st) st = KPtr ->
        Kind_of (Elem (Field v i st) st) st = KPtr ->
        convertStruct_loop conv f v (i :: rest) changed err st
        = convertStruct_loop conv f v rest changed err st).
Proof.
  split; [exact isStruct_iff|].
  intros conv f v i rest changed err st Hall Htag Hk1 Hk2.
  assert (Hs : isStruct (Field v i st) st = false).
  { destruct (isStruct (Field v i st) st) eqn:E; [|reflexivity].
    apply isStruct_iff in E as [E | [_ E]]; congruence. }
  cbn [convertStruct_loop]. rewrite Hs, Hall, Htag. reflexivity.
Qed.

Lemma X11_isStruct_one_pointer_witness :
  Converter.ConvertFields 5 (WithMarkdown Samples.picky) (Some 0) []
    (<[1 := CStruct [(Samples.untagged "PP", 2)]]> Samples.double_pointer)
  = Done false None
      (<[1 := CStruct [(Samples.untagged "PP", 2)]]> Samples.double_pointer)
  /\ Converter.ConvertFields 5 (WithMarkdown Samples.picky) (Some 0) []
       Samples.double_pointer
     = Done true None (<[5 := CString "y"]> Samples.double_pointer).
Proof.
  destruct X11_isStruct_one_pointer as [_ Hskip]. split.
  - unfold Converter.ConvertFields.
    rewrite (process_eq_convertStruct 5 _ 0 1) by reflexivity.
    unfold convertStruct, convertStruct_body.
    change (seq 0 _) with [0]. cbn [negb bool_decide]. 
    rewrite bool_decide_eq_true_2 by reflexivity. cbn [negb].
    rewrite Hskip; reflexivity.
  - reflexivity.
Defined.

Lemma once_idempotent opts s out :
  Samples.once opts s = (out, None) -> Samples.once opts out = (out, None).
Proof.
  unfold Samples.once. destruct (String.prefix "<p>" s) eqn:E.
  - intros [= <-]. rewrite E. reflexivity.
  - intros [= <-].
    assert (H : String.prefix "<p>" ("<p>" ++ s ++ "</p>")%string = true)
      by (simpl; destruct (s ++ "</p>")%string; reflexivity).
    rewrite H. reflexivity.
Qed.

(** X12.  Converting twice.  On a pointer to a struct whose fields are
    distinct string variables, with a converter that returns its own
    output unchanged when given it, a converting call that returned without
    error can be repeated: the second call returns [(false, nil)] and
    leaves the store as the first call left it. *)
Theorem X12_second_conversion_is_idle
    d c l t fs ss allFields opts st changed st' :
  st !! l = Some (CPtr (Some t)) ->
  st !! t = Some (CStruct fs) ->
  NoDup fs.*2 -> hold st fs.*2 ss ->
  (forall s out, markdown c opts s = (out, None) -> markdown c opts out = (out, None)) ->
  process (S d) c (Some l) allFields false opts st = Done changed None st' ->
  process (S d) c (Some l) allFields false opts st' = Done false None st'.
Proof. apply process_struct_of_strings_twice. Qed.

Lemma X12_second_conversion_is_idle_witness :
  Converter.ConvertAllFields 1 (WithMarkdown Samples.once) (Some 0) []
    (storeOf (Converter.ConvertAllFields 1 (WithMarkdown Samples.once) (Some 0) []
                Samples.four_strings))
  = Done false None
      (storeOf (Converter.ConvertAllFields 1 (WithMarkdown Samples.once) (Some 0) []
                  Samples.four_strings)).
Proof.
  refine (X12_second_conversion_is_idle 0 (WithMarkdown Samples.once) 0 1
            [(Samples.tagged "A" "yes", 2); (Samples.untagged "B", 3);
             (Samples.unexported "c" "on", 4); (Samples.tagged "D" "on", 5)]
            ["x"; "x"; "x"; "x"] true [] Samples.four_strings true _
            eq_refl eq_refl _ _ (once_idempotent []) eq_refl).
  - refine (bool_decide_unpack _ _). vm_compute. exact I.
  - repeat constructor.
Defined.

(** X13.  When the converter never fails on a text that it has itself
    produced without error, no map of the data has a named string type for
    its elements or a key that is not equal to itself, and every traversal
    of a map in the two calls visits its keys in one and the same order
    (the order is part of the store here), a validating call and the
    converting call with the same policy, converter and options, started in
    the same store with the same depth budget, return the same [changed]
    and the same error, or neither returns. *)
Theorem X13_validate_matches_convert depth c s allFields opts st :
  (forall x y, markdown c opts x = (y, None) -> snd (markdown c opts y) = None) ->
  string_maps_plain st ->
  nan_free st ->
  resultOf (process depth c s allFields true opts st)
  = resultOf (process depth c s allFields false opts st).
Proof.
  intros H Hplain Hnan. destruct c as [md]. simpl in H.
  exact (process_sim md opts allFields H depth s st (conj Hplain Hnan)).
Qed.

Lemma X13_validate_matches_convert_witness :
  resultOf (Converter.ValidateFields 3 (WithMarkdown Samples.strict)
              (Some 0) [] Samples.map_with_bad)
  = resultOf (Converter.ConvertFields 3 (WithMarkdown Samples.strict)
                (Some 0) [] Samples.map_with_bad)
  /\ resultOf (Converter.ConvertFields 3 (WithMarkdown Samples.strict)
                 (Some 0) [] Samples.map_with_bad)
     = Returned true None.
Proof.
  split; [|reflexivity].
  apply (X13_validate_matches_convert 3 (WithMarkdown Samples.strict)
           (Some 0) false [] Samples.map_with_bad).
  - intros x y. simpl. unfold Samples.strict.
    destruct (String.eqb x "bad"); [discriminate|].
    intros [= <-]. reflexivity.
  - intros l t obj Hl Hk.
    destruct l as [|[|[|[|l]]]]; simpl in Hl; try discriminate Hl.
    injection Hl as <- _. reflexivity.
  - intros l es Hl.
    destruct l as [|[|[|[|l]]]]; simpl in Hl; try discriminate Hl.
    injection Hl as <-. repeat constructor.
Defined.
